(** * Instance recommendation engine ([lambda_infer.py])

    A shallow embedding of [recommend_instance] and the properties of its
    result.  Python integers are [Z], Python floats are the binary64
    primitive floats of the kernel, dictionaries are [gmap]s, exceptions are
    the [Raise] branch of a result type, and the in-place coercion of the
    matrix labels is explicit state passing.  The one operation that the
    interpreter leaves to the C library, [pow], is a parameter of the
    model. *)

From Stdlib Require Import ZArith Lia Floats Sorted.
From stdpp Require Import gmap strings list sorting pretty.

Open Scope Z_scope.

(** ** Python values *)

(** A row or column label of a data frame before [astype(str)]: pandas
    infers integer labels from an all-numeric CSV column. *)
Inductive label :=
  | LStr (s : string)
  | LInt (z : Z).

(** [str(name)]: a string is itself, an integer prints in decimal. *)
Definition str (l : label) : string :=
  match l with
  | LStr s => s
  | LInt z => pretty z
  end.

(** The exceptions the engine can leave through. The first two are the
    [ValueError]s raised by the engine itself; the others come from the
    operations it calls. *)
Inductive exn :=
  | NotInCatalog (current : string)
  | NotInMatrixIndex (current : string)
  | AmbiguousTruthValue
  | MathDomainError
  | OverflowError
  | IndexError.

Inductive res (A : Type) :=
  | Return (a : A)
  | Raise (e : exn).
Arguments Return {A} a.
Arguments Raise {A} e.

#[global] Instance res_ret : MRet res := fun _ a => Return a.
#[global] Instance res_bind : MBind res := fun _ _ k m =>
  match m with
  | Return a => k a
  | Raise e => Raise e
  end.

(** [l[:n]] for a Python integer [n]: a negative stop counts from the end. *)
Definition slice_to {A} (l : list A) (n : Z) : list A :=
  if 0 <=? n then take (Z.to_nat n) l
  else take (length l - Z.to_nat (- n))%nat l.

(** ** Floats *)

(** A float that is not NaN and not below zero. *)
Definition sf_nonneg (x : spec_float) : bool :=
  match x with
  | S754_zero _ => true
  | S754_infinity s | S754_finite s _ _ => negb s
  | S754_nan => false
  end.

(** A finite float of magnitude at most [2 ^ K]. *)
Definition sf_mag_le (K : Z) (x : spec_float) : Prop :=
  match x with
  | S754_zero _ => True
  | S754_finite _ m e => Z.pos m < 2 ^ 53 ∧ Z.pos (digits2_pos m) + e <= K
  | _ => False
  end.

(** The C library under the interpreter.  [float_pow] leaves a power to
    [pow] of libm, whose last bit is the library's own: [pow(x, 2.0)] and
    the rounded product [x * x] differ on some doubles.  So [pow(x, 2.0)]
    is a parameter, [libm_pow_2 x], known by what every libm gives: the
    square of a number is a number that is not negative, and the square
    of a double below [2 ^ 256] is finite. *)
Class Libm := {
  libm_pow_2 : float -> float;
  libm_pow_2_nonneg x :
    is_nan x = false -> sf_nonneg (Prim2SF (libm_pow_2 x)) = true;
  libm_pow_2_finite x :
    sf_mag_le 256 (Prim2SF x) -> is_infinity (libm_pow_2 x) = false
}.

Module Float.

(** [float(z)] for a Python integer: round to nearest even, and
    [OverflowError] when no finite double is near enough. *)
Definition of_int (z : Z) : res float :=
  let f := SF2Prim (binary_normalize prec emax z 0 false) in
  if is_infinity f then Raise OverflowError else Return f.

(** [x ** 2] on a float ([float_pow] with exponent 2.0): NaN and the
    infinities pass through, zero and one are answered at once, a
    negative base gives way to its absolute value, [pow] of libm does the
    rest, and an infinite result of it raises. *)
Definition pow2 {libm : Libm} (x : float) : res float :=
  if is_nan x then Return x
  else if is_infinity x then Return infinity
  else if (x =? 0)%float then Return 0%float
  else
    let iv := abs x in
    if (iv =? 1)%float then Return 1%float
    else
      let ix := libm_pow_2 iv in
      if is_infinity ix then Raise OverflowError else Return ix.

(** [math.sqrt]: a NaN result from a non-NaN argument is a domain error. *)
Definition math_sqrt (x : float) : res float :=
  let r := PrimFloat.sqrt x in
  if is_nan r && negb (is_nan x) then Raise MathDomainError else Return r.

(** [z / 1024.0] and [z + f] convert the integer operand first. *)
Definition int_div (z : Z) (d : float) : res float :=
  f ← of_int z; Return (f / d)%float.

Definition int_add (z : Z) (f : float) : res float :=
  g ← of_int z; Return (g + f)%float.

Definition add_int (f : float) (z : Z) : res float :=
  g ← of_int z; Return (f + g)%float.

(** The classes of a float, read on its specification. *)
Definition sf_is_nan (x : spec_float) : bool :=
  match x with S754_nan => true | _ => false end.

Definition sf_is_inf (x : spec_float) : bool :=
  match x with S754_infinity _ => true | _ => false end.

Definition sf_finite (x : spec_float) : bool :=
  match x with S754_zero _ | S754_finite _ _ _ => true | _ => false end.

End Float.

(** ** Data model *)

(** One catalog row as [to_dict(orient='index')] gives it: column name to
    cell.  The resource columns hold integers. *)
Abbreviation row := (gmap string Z).

(** [name_map]: instance type to row dictionary. *)
Abbreviation catalog := (gmap string row).

(** The interchangeability matrix: row labels, column labels and the
    boolean cells, row by row. *)
Record DataFrame := {
  index : list label;
  columns : list label;
  cells : list (list bool)
}.

(** The two tables the caller passes in and keeps a reference to.  The
    catalog frame is held as the dictionary that
    [set_index('InstanceType').to_dict(orient='index')] reads from it: one
    row per instance type.  The model starts where that dictionary
    exists and [int] accepts its cells: a frame without the column
    [InstanceType], with a repeated instance type, or with a resource
    cell that is no number makes the code raise before or during the
    loop, and has no counterpart here. *)
Record frames := {
  instances_df : catalog;
  matrix_df : DataFrame
}.

Record candidate := {
  InstanceType : string;
  vCPUs : Z;
  MemoryMiB : Z;
  GPUs : Z;
  Score : float
}.

Record requested := {
  vcpus : Z;
  memory_mib : Z;
  gpus : Z
}.

(** What [recommend_instance] returns: one of the two [{"error": ...}]
    dictionaries or the ranked recommendation. *)
Inductive response :=
  | NoInterchangeable (current : string)
  | NoFeasible (req : requested)
  | Ranked (current : string) (req : requested)
           (best : candidate) (top_n : list candidate).

(** ** The engine *)

(** [df.index = df.index.astype(str)] and the same for the columns. *)
Definition astype_str (df : DataFrame) : DataFrame :=
  {| index := LStr <$> (str <$> index df);
     columns := LStr <$> (str <$> columns df);
     cells := cells df |}.

(** What [df.loc[key]] is: the rows whose label is [key]. *)
Definition loc (df : DataFrame) (key : string) : list (list bool) :=
  snd <$> filter (fun p => str (fst p) = key) (zip (index df) (cells df)).

(** [series.items()] for a single row. *)
Definition items (df : DataFrame) (r : list bool) : list (label * bool) :=
  zip (columns df) r.

(** The comprehension over [interchangeable_series.items()].  With one
    matching row [loc] is a series; with several it is a frame whose items
    are columns, and [bool] of a column of several cells raises. *)
Definition compatible_names (df : DataFrame) (current : string)
  : res (list string) :=
  match loc df current with
  | [r] =>
      Return (str <$> (fst <$> filter
                (fun p => snd p = true /\ str (fst p) <> current)
                (items df r)))
  | _ =>
      match columns df with
      | [] => Return []
      | _ :: _ => Raise AmbiguousTruthValue
      end
  end.

(** [int(inst.get(field, 0))]. *)
Definition get_int (inst : row) (field : string) : Z :=
  default 0 (inst !! field).

Definition distance {libm : Libm} (vcpu mem gpu : Z) (req : requested)
  : res float :=
  mem_scaled ← Float.int_div mem 1024;
  req_mem_scaled ← Float.int_div (memory_mib req) 1024;
  m2 ← Float.pow2 (mem_scaled - req_mem_scaled);
  s ← Float.int_add ((vcpu - vcpus req) ^ 2) m2;
  s ← Float.add_int s ((gpu - gpus req) ^ 2);
  Float.math_sqrt s.

(** The body of the loop over [compatible_names]: [None] is [continue]. *)
Definition evaluate {libm : Libm} (name_map : catalog) (req : requested)
    (target : string) : res (option candidate) :=
  match name_map !! target with
  | None => Return None
  | Some inst =>
      if decide (inst = ∅) then Return None
      else
        let vcpu := get_int inst "vCPUs" in
        let mem := get_int inst "MemoryMiB" in
        let gpu := get_int inst "GPUs" in
        if (vcpu <? vcpus req) || (mem <? memory_mib req) || (gpu <? gpus req)
        then Return None
        else
          dist ← distance vcpu mem gpu req;
          Return (Some {| InstanceType := target; vCPUs := vcpu;
                          MemoryMiB := mem; GPUs := gpu; Score := dist |})
  end.

(** The loop: candidates are appended in the order of the names. *)
Fixpoint evaluate_all {libm : Libm} (name_map : catalog) (req : requested)
    (names : list string) : res (list candidate) :=
  match names with
  | [] => Return []
  | target :: rest =>
      c ← evaluate name_map req target;
      cs ← evaluate_all name_map req rest;
      Return (match c with Some c => c :: cs | None => cs end)
  end.

(** [list.sort(key=...)]: stable, ascending, comparing keys with [<].
    The scores are never NaN ([evaluate_all_not_nan] below), so [<] is a
    strict weak order on them and every stable sort gives this list. *)
Fixpoint insert_by (c : candidate) (l : list candidate) : list candidate :=
  match l with
  | [] => [c]
  | d :: l' =>
      if (Score d <? Score c)%float then d :: insert_by c l'
      else c :: d :: l'
  end.

Fixpoint sort_by_score (l : list candidate) : list candidate :=
  match l with
  | [] => []
  | c :: l' => insert_by c (sort_by_score l')
  end.

(** [recommend_instance]: the result together with the two frames as the
    caller finds them afterwards.  [instances_df] is only read; the labels
    of [matrix_df] are replaced in place before anything else happens. *)
Definition recommend_instance {libm : Libm} (current_instance_type : string)
    (required_vcpus required_memory_mib required_gpus : Z)
    (fr : frames) (top_n : Z) : res response * frames :=
  let matrix_df := astype_str (matrix_df fr) in
  let fr' := {| instances_df := instances_df fr; matrix_df := matrix_df |} in
  let name_map := instances_df fr in
  let req := {| vcpus := required_vcpus; memory_mib := required_memory_mib;
                gpus := required_gpus |} in
  let result :=
    match name_map !! current_instance_type with
    | None => Raise (NotInCatalog current_instance_type)
    | Some _ =>
        if decide (current_instance_type ∈ str <$> index matrix_df) then
          compatible_names ← compatible_names matrix_df current_instance_type;
          match compatible_names with
          | [] => Return (NoInterchangeable current_instance_type)
          | _ :: _ =>
              candidates ← evaluate_all name_map req compatible_names;
              match candidates with
              | [] => Return (NoFeasible req)
              | _ :: _ =>
                  let candidates := sort_by_score candidates in
                  match candidates with
                  | [] => Raise IndexError
                  | best :: _ =>
                      Return (Ranked current_instance_type req best
                                (slice_to candidates top_n))
                  end
              end
          end
        else Raise (NotInMatrixIndex current_instance_type)
    end in
  (result, fr').

(** ** Specification-side notions *)

(** The relation the matrix stands for: [allowed df source target] when
    some row labelled [source] holds [True] under a column labelled
    [target]. *)
Definition allowed (df : DataFrame) (source target : string) : Prop :=
  ∃ i j ls lt r,
    index df !! i = Some ls ∧ str ls = source ∧ cells df !! i = Some r ∧
    columns df !! j = Some lt ∧ str lt = target ∧ r !! j = Some true.

(** A name is feasible when the catalog has a non-empty row for it whose
    resources reach the three thresholds. *)
Definition feasible (name_map : catalog) (req : requested) (t : string) : bool :=
  match name_map !! t with
  | None => false
  | Some inst =>
      bool_decide (inst ≠ ∅) &&
      (vcpus req <=? get_int inst "vCPUs") &&
      (memory_mib req <=? get_int inst "MemoryMiB") &&
      (gpus req <=? get_int inst "GPUs")
  end.

(** Labels that [astype(str)] leaves as they are. *)
Definition all_strings (ls : list label) : Prop :=
  Forall (λ l, ∃ s, l = LStr s) ls.

(** The hard failure of an unknown source. *)
Definition UnknownSource (e : exn) : Prop :=
  match e with
  | NotInCatalog _ | NotInMatrixIndex _ => True
  | _ => False
  end.

(** The Euclidean distance of the specification, in binary64 arithmetic:
    integers are rounded to the nearest double, memory is divided by 1024
    on both sides before the difference, and the square of a double is
    its power [** 2]. *)
Definition to_float (z : Z) : float :=
  SF2Prim (binary_normalize prec emax z 0 false).

Definition square {libm : Libm} (x : float) : float :=
  if is_nan x then x
  else if is_infinity x then infinity
  else if (x =? 0)%float then 0%float
  else if (abs x =? 1)%float then 1%float
  else libm_pow_2 (abs x).

Definition euclidean {libm : Libm} (v m g rv rm rg : Z) : float :=
  let dm := (to_float m / 1024 - to_float rm / 1024)%float in
  PrimFloat.sqrt
    (to_float ((v - rv) ^ 2) + square dm + to_float ((g - rg) ^ 2))%float.

(** A row with 0 written into the resource fields it lacks. *)
Definition fill_field (field : string) (inst : row) : row :=
  match inst !! field with
  | None => <[field := 0]> inst
  | Some _ => inst
  end.

Definition fill_missing (inst : row) : row :=
  fill_field "vCPUs" (fill_field "MemoryMiB" (fill_field "GPUs" inst)).

(** Two scores are the same sort key when they compare equal. *)
Definition same_score (k : float) (c : candidate) : bool :=
  (Score c =? k)%float.

Definition score_le (a b : candidate) : Prop :=
  (Score a <=? Score b)%float = true.

Definition not_nan (c : candidate) : Prop := is_nan (Score c) = false.

(** The properties of a response that the claims speak about. *)
Definition best_is_first (r : response) : Prop :=
  match r with
  | Ranked _ _ best top => head top = Some best
  | _ => True
  end.

Definition top_length_is_min (r : response) (limit : Z) (n_feasible : nat) : Prop :=
  match r with
  | Ranked _ _ _ top => Z.of_nat (length top) = Z.min limit (Z.of_nat n_feasible)
  | _ => True
  end.

(** ** Sample tables *)

Definition spec_row (v m g : Z) : row :=
  {[ "vCPUs" := v; "MemoryMiB" := m; "GPUs" := g ]}.

(** Scenario A of the specification, with the matrix also marking the
    source as its own replacement. *)
Definition catalog_A : catalog :=
  {[ "A" := spec_row 4 8192 0; "B" := spec_row 8 16384 0;
     "C" := spec_row 4 8192 0 ]}.

Definition matrix_A : DataFrame :=
  {| index := [LStr "A"; LStr "B"; LStr "C"];
     columns := [LStr "A"; LStr "B"; LStr "C"; LStr "D"];
     cells := [[true; true; true; true];
               [false; false; false; false];
               [false; false; false; false]] |}.

Definition frames_A : frames :=
  {| instances_df := catalog_A; matrix_df := matrix_A |}.

Definition cand (name : string) (v m g : Z) (score : float) : candidate :=
  {| InstanceType := name; vCPUs := v; MemoryMiB := m; GPUs := g;
     Score := score |}.

Definition req_A : requested := {| vcpus := 4; memory_mib := 8192; gpus := 0 |}.
Definition cand_B : candidate := cand "B" 8 16384 0 (PrimFloat.sqrt 80).
Definition cand_C : candidate := cand "C" 4 8192 0 0.

(** A matrix read from a CSV whose first column is all numeric: the row
    labels are integers, the column labels are the strings of the header. *)
Definition catalog_N : catalog :=
  {[ "1" := spec_row 4 8192 0; "2" := spec_row 8 16384 0;
     "m5.large" := spec_row 2 8192 0 ]}.

Definition matrix_N : DataFrame :=
  {| index := [LInt 1; LInt 2];
     columns := [LStr "1"; LStr "2"];
     cells := [[false; true]; [true; false]] |}.

Definition frames_N : frames :=
  {| instances_df := catalog_N; matrix_df := matrix_N |}.



(** A catalog frame with no column besides [InstanceType]. *)
Definition catalog_E : catalog := {[ "A" := ∅; "B" := ∅ ]}.

Definition matrix_E : DataFrame :=
  {| index := [LStr "A"; LStr "B"];
     columns := [LStr "A"; LStr "B"];
     cells := [[false; true]; [true; false]] |}.

Definition frames_E : frames :=
  {| instances_df := catalog_E; matrix_df := matrix_E |}.

(** The same frame with the three resource columns present and zero. *)
Definition frames_E0 : frames :=
  {| instances_df := fill_missing <$> catalog_E; matrix_df := matrix_E |}.

Definition req_0 : requested := {| vcpus := 0; memory_mib := 0; gpus := 0 |}.

(** The claim about missing fields, as a property of one name. *)
Definition missing_as_zero {libm : Libm} (name_map : catalog) (req : requested)
    (t : string) : Prop :=
  ∀ inst, name_map !! t = Some inst ->
    evaluate name_map req t = evaluate (<[t := fill_missing inst]> name_map) req t.

(** ** Further notions *)

(** A response with its top list left out: what does not depend on the
    limit. *)
Definition without_top (r : res response) : res response :=
  match r with
  | Return (Ranked current req best _) => Return (Ranked current req best [])
  | _ => r
  end.

Definition top_of (r : res response) : list candidate :=
  match r with
  | Return (Ranked _ _ _ top) => top
  | _ => []
  end.

(** ** The Lambda handler *)

(** The values of the event that the handler reads: JSON null, booleans,
    integers and strings. *)
Inductive pyval :=
  | VNone
  | VBool (b : bool)
  | VInt (z : Z)
  | VStr (s : string).

(** The truth value of an object, as [not], [or] and [if] take it. *)
Definition truthy (v : pyval) : bool :=
  match v with
  | VNone => false
  | VBool b => b
  | VInt z => negb (z =? 0)
  | VStr s => negb (bool_decide (s = ""))
  end.

(** [str(v)], as an f-string prints it. *)
Definition py_str (v : pyval) : string :=
  match v with
  | VNone => "None"
  | VBool true => "True"
  | VBool false => "False"
  | VInt z => pretty z
  | VStr s => s
  end.

(** [a or b]. *)
Definition py_or (a b : pyval) : pyval := if truthy a then a else b.

(** [event.get(key)] and [event.get(key, d)]. *)
Definition get (event : gmap string pyval) (key : string) : pyval :=
  default VNone (event !! key).

Definition get_or (event : gmap string pyval) (key : string) (d : pyval)
  : pyval :=
  default d (event !! key).

(** What the [try] block of the handler can be left with. *)
Inductive error :=
  | EngineError (e : exn)
  | IntTypeError
  | IntValueError (s : string)
  | LoadError (bucket key : pyval)
  | NoColumns.

Inductive outcome (A : Type) :=
  | Ok (a : A)
  | Err (e : error).
Arguments Ok {A} a.
Arguments Err {A} e.

#[global] Instance outcome_ret : MRet outcome := fun _ a => Ok a.
#[global] Instance outcome_bind : MBind outcome := fun _ _ k m =>
  match m with
  | Ok a => k a
  | Err e => Err e
  end.

(** A cell of the matrix table as [read_csv] types it: a boolean, a
    number, a string, or NaN for an empty field. *)
Inductive cell :=
  | CBool (b : bool)
  | CNum (z : Z)
  | CStr (s : string)
  | CNaN.

(** [bool(x)] on a cell: NaN and every non-empty string are true. *)
Definition cell_bool (c : cell) : bool :=
  match c with
  | CBool b => b
  | CNum z => negb (z =? 0)
  | CStr s => negb (bool_decide (s = ""))
  | CNaN => true
  end.

(** The matrix table as loaded: the header with all column names, and the
    rows, each with the value of its first column apart. *)
Record csv := {
  header : list string;
  rows : list (label * list cell)
}.

(** The matrix after [set_index]: labelled rows of cells not yet coerced. *)
Record indexed := {
  ix_index : list label;
  ix_columns : list string;
  ix_cells : list (list cell)
}.

(** [df.set_index(df.columns[0])]: [columns[0]] of a frame without
    columns is an index error. *)
Definition set_index_first (df : csv) : outcome indexed :=
  match header df with
  | [] => Err NoColumns
  | _ :: names =>
      Ok {| ix_index := fst <$> rows df;
            ix_columns := names;
            ix_cells := snd <$> rows df |}
  end.

(** [df.applymap(lambda x: bool(x))]. *)
Definition applymap_bool (df : indexed) : DataFrame :=
  {| index := ix_index df;
     columns := LStr <$> ix_columns df;
     cells := (λ r : list cell, cell_bool <$> r) <$> ix_cells df |}.

Inductive message :=
  | MissingLocation
  | ExceptionText (e : error).

Inductive http_body :=
  | Body (r : response)
  | BodyError (m : message).

Record http := {
  statusCode : Z;
  body : http_body
}.

Section handler.
Context {libm : Libm}.

(** [int(s)] on a string: the integer it spells, if it spells one. *)
Variable int_of_str : string -> option Z.

(** [load_df_from_s3] on the catalog key and on the matrix key: the object
    store answers with a table or fails.  The catalog table is taken in the
    dictionary view in which the engine reads it. *)
Variable load_catalog : pyval -> pyval -> outcome catalog.
Variable load_matrix : pyval -> pyval -> outcome csv.

(** [int(v)]. *)
Definition py_int (v : pyval) : outcome Z :=
  match v with
  | VNone => Err IntTypeError
  | VBool b => Ok (if b then 1 else 0)
  | VInt z => Ok z
  | VStr s =>
      match int_of_str s with
      | Some z => Ok z
      | None => Err (IntValueError s)
      end
  end.

(** The call of the engine from the handler.  The instance types of the
    catalog are strings, so a source that is not a string is not a key of
    it. *)
Definition call_engine (current : pyval) (rv rm rg : Z)
    (catalog_df : catalog) (matrix_df : DataFrame) (top_n : Z)
  : outcome response :=
  let result :=
    match current with
    | VStr s =>
        (recommend_instance s rv rm rg
           {| instances_df := catalog_df; matrix_df := matrix_df |} top_n).1
    | v => Raise (NotInCatalog (py_str v))
    end in
  match result with
  | Return r => Ok r
  | Raise e => Err (EngineError e)
  end.

Definition lambda_handler (event : gmap string pyval) : http :=
  let attempt : outcome http :=
    let current_instance_type :=
      py_or (get event "current_instance_type") (get event "instance_type") in
    required_vcpus ← py_int (get_or event "required_vcpus" (VInt 0));
    required_memory_mib ← py_int (get_or event "required_memory_mib" (VInt 0));
    required_gpus ← py_int (get_or event "required_gpus" (VInt 0));
    top_n ← py_int (get_or event "top_n" (VInt 3));
    let bucket := get event "bucket" in
    let catalog_key := get event "catalog_key" in
    let matrix_key := get event "matrix_key" in
    if negb (truthy bucket) || negb (truthy catalog_key)
         || negb (truthy matrix_key)
    then Ok {| statusCode := 400; body := BodyError MissingLocation |}
    else
      catalog_df ← load_catalog bucket catalog_key;
      matrix_df ← load_matrix bucket matrix_key;
      matrix_df ← set_index_first matrix_df;
      let matrix_df := applymap_bool matrix_df in
      result ← call_engine current_instance_type required_vcpus
                 required_memory_mib required_gpus catalog_df matrix_df top_n;
      Ok {| statusCode := 200; body := Body result |}
  in
  match attempt with
  | Ok r => r
  | Err e => {| statusCode := 500; body := BodyError (ExceptionText e) |}
  end.

(** The four numbers of the event, converted in the order of the handler;
    and whether the three locations are all given. *)
Definition numbers (event : gmap string pyval) : outcome (Z * Z * Z * Z) :=
  required_vcpus ← py_int (get_or event "required_vcpus" (VInt 0));
  required_memory_mib ← py_int (get_or event "required_memory_mib" (VInt 0));
  required_gpus ← py_int (get_or event "required_gpus" (VInt 0));
  top_n ← py_int (get_or event "top_n" (VInt 3));
  Ok (required_vcpus, required_memory_mib, required_gpus, top_n).

Definition located (event : gmap string pyval) : bool :=
  truthy (get event "bucket") && truthy (get event "catalog_key")
    && truthy (get event "matrix_key").

Definition source (event : gmap string pyval) : pyval :=
  py_or (get event "current_instance_type") (get event "instance_type").

End handler.

(** ** A sample object store and events *)

Definition store_catalog (bucket key : pyval) : outcome catalog :=
  match bucket, key with
  | VStr "tables", VStr "catalog.csv" => Ok catalog_A
  | _, _ => Err (LoadError bucket key)
  end.

Definition csv_A : csv :=
  {| header := ["InstanceType"; "A"; "B"; "C"; "D"];
     rows := [(LStr "A", [CBool true; CBool true; CBool true; CBool true]);
              (LStr "B", [CBool false; CBool false; CBool false; CBool false]);
              (LStr "C", [CBool false; CBool false; CBool false; CBool false])] |}.

Definition store_matrix (bucket key : pyval) : outcome csv :=
  match bucket, key with
  | VStr "tables", VStr "matrix.csv" => Ok csv_A
  | _, _ => Err (LoadError bucket key)
  end.

(** No string spells an integer: enough for events whose numbers are JSON
    numbers. *)
Definition no_int_of_str (s : string) : option Z := None.

Definition event_A : gmap string pyval :=
  {[ "current_instance_type" := VStr "A";
     "required_vcpus" := VInt 4; "required_memory_mib" := VInt 8192;
     "bucket" := VStr "tables"; "catalog_key" := VStr "catalog.csv";
     "matrix_key" := VStr "matrix.csv" ]}.

(** The same event for a source that the catalog does not have. *)
Definition event_Z : gmap string pyval :=
  <["current_instance_type" := VStr "Z"]> event_A.

(** The range of a 64-bit integer, which the cells of an integer column of
    a data frame are in. *)
Definition int64 (z : Z) : Prop := - 2 ^ 63 <= z < 2 ^ 63.

(** * Facts *)

(** ** Binary64 arithmetic

    Rounding never produces a NaN, and rounding a mantissa that is small
    enough never overflows; from these, the operations of [distance] keep
    their operands away from NaN. *)

Module FloatFacts.
Import Float.

Lemma digits2_pos_size p : digits2_pos p = Pos.size p.
Proof. induction p; simpl; congruence. Qed.

Lemma Zdigits2_gt m : 0 <= m -> m < 2 ^ Zdigits2 m.
Proof.
intros Hm. destruct m as [|p|p]; [reflexivity| |lia].
simpl. rewrite digits2_pos_size.
pose proof (Pos.size_gt p) as H.
apply Pos2Z.pos_lt_pos in H. rewrite Pos2Z.inj_pow in H. exact H.
Qed.

Lemma Zdigits2_le m k : 0 <= k -> 0 <= m < 2 ^ k -> Zdigits2 m <= k.
Proof.
intros Hk [Hm Hlt]. destruct m as [|p|p]; [simpl; lia| |lia].
simpl. rewrite digits2_pos_size.
destruct (Z.le_gt_cases (Z.pos (Pos.size p)) k) as [|Hgt]; [done|].
exfalso.
pose proof (Pos.size_le p) as H.
assert (2 ^ Z.pos (Pos.size p) <= Z.pos p~0) as H'.
{ rewrite <- Pos2Z.inj_pow. apply Pos2Z.pos_le_pos. exact H. }
assert (2 ^ (k + 1) <= 2 ^ Z.pos (Pos.size p)) by (apply Z.pow_le_mono_r; lia).
rewrite Z.pow_add_r in * by lia. lia.
Qed.

Lemma Zdigits2_nonneg m : 0 <= Zdigits2 m.
Proof. destruct m; simpl; lia. Qed.

Lemma shr_1_m mrs : 0 <= shr_m mrs -> shr_m (shr_1 mrs) = shr_m mrs / 2.
Proof.
destruct mrs as [m r s]; simpl. intros Hm.
destruct m as [|[p|p|]|p]; simpl; try lia; try reflexivity.
- rewrite (Pos2Z.inj_xI p). apply (Z.div_unique _ _ _ 1); lia.
- rewrite (Pos2Z.inj_xO p). apply (Z.div_unique _ _ _ 0); lia.
Qed.

Lemma iter_pos_shr_1_m p : forall mrs,
0 <= shr_m mrs -> shr_m (SpecFloat.iter_pos shr_1 p mrs) = shr_m mrs / 2 ^ Z.pos p.
Proof.
induction p as [p IH|p IH|]; intros mrs Hm; simpl SpecFloat.iter_pos.
- assert (0 <= shr_m (shr_1 mrs)) as H1 by (rewrite shr_1_m by done; apply Z.div_pos; lia).
  assert (0 <= shr_m (SpecFloat.iter_pos shr_1 p (shr_1 mrs))) as H2
    by (rewrite IH by done; apply Z.div_pos; lia).
  rewrite IH, IH, shr_1_m by done.
  rewrite !Z.div_div by lia. f_equal.
  rewrite (Pos2Z.inj_xI p).
  replace (2 * Z.pos p + 1) with (Z.pos p + Z.pos p + 1) by lia.
  rewrite !Z.pow_add_r by lia. change (2 ^ 1) with 2. ring.
- assert (0 <= shr_m (SpecFloat.iter_pos shr_1 p mrs)) as H2
    by (rewrite IH by done; apply Z.div_pos; lia).
  rewrite IH, IH by done.
  rewrite !Z.div_div by lia. f_equal.
  rewrite (Pos2Z.inj_xO p).
  replace (2 * Z.pos p) with (Z.pos p + Z.pos p) by lia.
  rewrite !Z.pow_add_r by lia. ring.
- rewrite shr_1_m by done. reflexivity.
Qed.

Lemma shr_record_of_loc_m m l : shr_m (shr_record_of_loc m l) = m.
Proof. destruct l as [|[]]; reflexivity. Qed.

(** The mantissa and the exponent after [shr_fexp]. *)
Lemma shr_fexp_spec m e l :
0 <= m ->
let n := Z.max 0 (fexp prec emax (Zdigits2 m + e) - e) in
shr_m (fst (shr_fexp prec emax m e l)) = m / 2 ^ n /\
snd (shr_fexp prec emax m e l) = e + n.
Proof.
intros Hm n. unfold shr_fexp, shr. subst n.
destruct (fexp prec emax (Zdigits2 m + e) - e) as [|p|p] eqn:E; simpl fst; simpl snd.
- rewrite shr_record_of_loc_m, Z.div_1_r. split; [done|lia].
- rewrite iter_pos_shr_1_m by (rewrite shr_record_of_loc_m; done).
  rewrite shr_record_of_loc_m. rewrite Z.max_r by lia. done.
- rewrite shr_record_of_loc_m. rewrite Z.max_l by lia. rewrite Z.div_1_r. split; [done|lia].
Qed.

Lemma round_nearest_even_bounds m l :
m <= round_nearest_even m l <= m + 1.
Proof. destruct l as [|[]]; simpl; try lia. destruct (Z.even m); lia. Qed.

Lemma binary_round_aux_not_nan s m e l :
0 <= m -> sf_is_nan (binary_round_aux prec emax s m e l) = false.
Proof.
intros Hm. unfold binary_round_aux.
destruct (shr_fexp prec emax m e l) as [mrs' e'] eqn:E1.
pose proof (shr_fexp_spec m e l Hm) as [Hm1 _]. rewrite E1 in Hm1. simpl in Hm1.
pose proof (round_nearest_even_bounds (shr_m mrs') (loc_of_shr_record mrs')) as Hr.
assert (0 <= shr_m mrs') as H0 by (rewrite Hm1; apply Z.div_pos; lia).
set (m1 := round_nearest_even _ _) in *.
destruct (shr_fexp prec emax m1 e' loc_Exact) as [mrs'' e''] eqn:E2.
pose proof (shr_fexp_spec m1 e' loc_Exact ltac:(lia)) as [Hm2 _].
rewrite E2 in Hm2. simpl in Hm2.
assert (0 <= shr_m mrs'') as H2 by (rewrite Hm2; apply Z.div_pos; lia).
destruct (shr_m mrs''); [done| |lia].
by destruct (_ <=? _).
Qed.

Lemma binary_round_aux_no_overflow s m e l k :
0 <= k -> 0 <= m < 2 ^ k -> e <= 971 -> k + e <= 1023 ->
sf_is_inf (binary_round_aux prec emax s m e l) = false.
Proof.
intros Hk [Hm Hlt] He Hke. unfold binary_round_aux.
destruct (shr_fexp prec emax m e l) as [mrs' e'] eqn:E1.
pose proof (shr_fexp_spec m e l Hm) as [Hm1 He1]. rewrite E1 in Hm1, He1.
simpl in Hm1, He1.
pose proof (round_nearest_even_bounds (shr_m mrs') (loc_of_shr_record mrs')) as Hr.
assert (0 <= shr_m mrs') as H0 by (rewrite Hm1; apply Z.div_pos; lia).
set (m1 := round_nearest_even _ _) in *.
destruct (shr_fexp prec emax m1 e' loc_Exact) as [mrs'' e''] eqn:E2.
pose proof (shr_fexp_spec m1 e' loc_Exact ltac:(lia)) as [_ He2].
rewrite E2 in He2. simpl in He2.
pose proof (Zdigits2_le m k Hk (conj Hm Hlt)) as Hd.
pose proof (Zdigits2_nonneg m) as Hd0.
set (n1 := Z.max 0 (fexp prec emax (Zdigits2 m + e) - e)) in *.
assert (Zdigits2 m1 + e' <= 1024) as Hd1.
{ destruct (Z.le_gt_cases n1 k) as [Hle|Hgt].
  - assert (shr_m mrs' < 2 ^ (k - n1)) as Hb.
    { rewrite Hm1. apply Z.div_lt_upper_bound; [lia|].
      rewrite <- Z.pow_add_r by lia. replace (n1 + (k - n1)) with k by lia. done. }
    assert (Zdigits2 m1 <= k - n1 + 1); [|lia].
    apply Zdigits2_le; [lia|]. rewrite Z.pow_add_r by lia. change (2 ^ 1) with 2. lia.
  - assert (shr_m mrs' = 0) as Hb.
    { rewrite Hm1. apply Z.div_small. split; [done|].
      eapply Z.lt_le_trans; [exact Hlt|]. apply Z.pow_le_mono_r; lia. }
    assert (Zdigits2 m1 <= 1).
    { apply Zdigits2_le; [lia|]. change (2 ^ 1) with 2. lia. }
    unfold fexp, SpecFloat.emin, prec, emax in *. lia. }
assert (e'' <= 971) as He''.
{ unfold fexp, SpecFloat.emin, prec, emax in *. lia. }
destruct (shr_m mrs''); [done| |done].
unfold emax, prec. replace (e'' <=? 1024 - 53) with true; [done|].
symmetry. apply Z.leb_le. lia.
Qed.

Lemma binary_round_not_nan s m e :
sf_is_nan (binary_round prec emax s m e) = false.
Proof.
unfold binary_round. destruct (shl_align _ _ _) as [mz ez].
by apply binary_round_aux_not_nan.
Qed.

Lemma binary_normalize_not_nan m e sz :
sf_is_nan (binary_normalize prec emax m e sz) = false.
Proof. destruct m; simpl; [done|apply binary_round_not_nan..]. Qed.

Lemma SFcompare_refl x : sf_is_nan x = false -> SFcompare x x = Some Eq.
Proof.
destruct x as [s|s| |s m e]; simpl; try done.
- by destruct s.
- intros _. rewrite Z.compare_refl, Pos.compare_cont_refl. by destruct s.
Qed.

Lemma is_nan_spec f : is_nan f = sf_is_nan (Prim2SF f).
Proof.
unfold is_nan. rewrite FloatAxioms.eqb_spec. unfold SFeqb.
destruct (sf_is_nan (Prim2SF f)) eqn:E.
- by destruct (Prim2SF f).
- by rewrite SFcompare_refl.
Qed.

Lemma is_infinity_spec f : is_infinity f = sf_is_inf (Prim2SF f).
Proof.
unfold is_infinity. rewrite FloatAxioms.eqb_spec, abs_spec.
change (Prim2SF infinity) with (S754_infinity false).
unfold SFeqb. by destruct (Prim2SF f) as [s|s| |s m e].
Qed.

Lemma sf_finite_spec x :
sf_finite x = negb (sf_is_nan x) && negb (sf_is_inf x).
Proof. by destruct x. Qed.

(** *** The arithmetic operations on finite operands *)

Lemma SFldexp_not_nan x e :
sf_is_nan x = false -> sf_is_nan (SFldexp prec emax x e) = false.
Proof. destruct x; simpl; try done. intros _. apply binary_round_not_nan. Qed.

Lemma SFopp_is_nan x : sf_is_nan (SFopp x) = sf_is_nan x.
Proof. by destruct x. Qed.

Lemma SF2Prim_not_nan x :
sf_is_nan x = false -> is_nan (SF2Prim x) = false.
Proof.
destruct x as [[]|[]| |s m e]; try done. intros _.
unfold SF2Prim.
assert (is_nan (Z.ldexp (of_uint63 (Uint63.of_Z (Z.pos m))) e) = false) as H.
{ rewrite is_nan_spec, Z_ldexp_spec. apply SFldexp_not_nan.
  rewrite of_uint63_spec. apply binary_normalize_not_nan. }
destruct s; [|done].
rewrite is_nan_spec, opp_spec, SFopp_is_nan, <- is_nan_spec. done.
Qed.

Lemma of_int_finite z f :
of_int z = Return f -> sf_finite (Prim2SF f) = true.
Proof.
unfold of_int. destruct (is_infinity _) eqn:E; [done|].
intros [= <-]. rewrite sf_finite_spec, <- is_nan_spec, <- is_infinity_spec, E.
rewrite SF2Prim_not_nan; [done|]. apply binary_normalize_not_nan.
Qed.

Lemma bounded_spec m e :
bounded prec emax m e = true ->
Z.max (Z.pos (digits2_pos m) + e - 53) (-1074) = e /\ e <= 971.
Proof.
unfold bounded, canonical_mantissa, fexp, SpecFloat.emin, prec, emax.
intros [H1 H2]%andb_prop. apply Z.eqb_eq in H1. apply Z.leb_le in H2. lia.
Qed.

Lemma div_1024_finite x :
valid_binary x = true -> sf_finite x = true ->
sf_finite (SF64div x (Prim2SF 1024)) = true.
Proof.
change (Prim2SF 1024) with (S754_finite false 4503599627370496 (-42)).
destruct x as [sx|sx| |sx m e]; try done. simpl valid_binary.
intros [Hc He]%bounded_spec _.
unfold SF64div, SFdiv.
destruct (SFdiv_core_binary _ _ _ _ _ _) as [[mz ez] lz] eqn:E.
unfold SFdiv_core_binary in E.
change (Zdigits2 (Z.pos m)) with (Z.pos (digits2_pos m)) in E.
change (Zdigits2 4503599627370496) with 53 in E.
set (d := Z.pos (digits2_pos m)) in *.
set (e' := Z.min _ _) in E.
set (m' := match e - -42 - e' with 0 => _ | Z.pos _ => _ | Z.neg _ => _ end) in E.
revert E. destruct (IntDef.Z.div_eucl m' 4503599627370496) as [q r] eqn:Ed.
assert (q = m' / 2 ^ 52) as Hq.
{ unfold Z.div. change (Z.div_eucl m' (2 ^ 52)) with (IntDef.Z.div_eucl m' 4503599627370496).
  by rewrite Ed. }
intros [= <- <- <-].
assert (e' <= 960 /\ e' <= e + 42) as [He'1 He'2].
{ subst e'. unfold fexp, SpecFloat.emin, prec, emax. lia. }
set (s := e + 42 - e') in *.
assert (0 <= m' < 2 ^ (d + s)) as Hm'.
{ pose proof (Zdigits2_gt (Z.pos m) ltac:(lia)) as Hd.
  change (Zdigits2 (Z.pos m)) with d in Hd.
  assert (m' = Z.pos m * 2 ^ s) as ->.
  { subst m'. replace (e - -42 - e') with s by lia.
    destruct s eqn:Es; [rewrite Z.mul_1_r; done| |lia].
    change (IntDef.Z.shiftl (Z.pos m) (Z.pos p)) with (Z.shiftl (Z.pos m) (Z.pos p)).
    by rewrite Z.shiftl_mul_pow2. }
  rewrite Z.pow_add_r by lia.
  assert (0 < 2 ^ s) by (apply Z.pow_pos_nonneg; lia). nia. }
assert (0 <= q) as Hq0 by (rewrite Hq; apply Z.div_pos; lia).
rewrite sf_finite_spec, binary_round_aux_not_nan by done.
rewrite (binary_round_aux_no_overflow _ _ _ _ (Z.max 0 (d + s - 52))); [done|lia| |lia|lia].
split; [done|]. rewrite Hq.
destruct (Z.le_gt_cases 52 (d + s)) as [Hle|Hgt].
- rewrite Z.max_r by lia. apply Z.div_lt_upper_bound; [lia|].
  rewrite <- Z.pow_add_r by lia. replace (52 + (d + s - 52)) with (d + s) by lia. lia.
- rewrite Z.max_l by lia. rewrite Z.div_small; [lia|]. split; [lia|].
  eapply Z.lt_le_trans; [apply Hm'|]. apply Z.pow_le_mono_r; lia.
Qed.

Lemma SFsub_not_nan x y :
sf_finite x = true -> sf_finite y = true ->
sf_is_nan (SF64sub x y) = false.
Proof.
destruct x as [sx|sx| |sx mx ex], y as [sy|sy| |sy my ey]; try done; intros _ _.
- by destruct sx, sy.
- apply binary_normalize_not_nan.
Qed.

Lemma SFadd_not_nan_l x y :
sf_finite x = true -> sf_is_nan y = false ->
sf_is_nan (SF64add x y) = false.
Proof.
destruct x as [sx|sx| |sx mx ex], y as [sy|sy| |sy my ey]; try done; intros _ _.
- by destruct sx, sy.
- apply binary_normalize_not_nan.
Qed.

Lemma SFadd_not_nan_r x y :
sf_is_nan x = false -> sf_finite y = true ->
sf_is_nan (SF64add x y) = false.
Proof.
destruct x as [sx|sx| |sx mx ex], y as [sy|sy| |sy my ey]; try done; intros _ _.
- by destruct sx, sy.
- apply binary_normalize_not_nan.
Qed.

Lemma math_sqrt_not_nan x r :
is_nan x = false -> math_sqrt x = Return r -> is_nan r = false.
Proof.
intros Hx. unfold math_sqrt. rewrite Hx.
destruct (is_nan (PrimFloat.sqrt x)) eqn:E; [done|]. by intros [= <-].
Qed.

Lemma int_div_1024_finite z f :
int_div z 1024 = Return f -> sf_finite (Prim2SF f) = true.
Proof.
unfold int_div. destruct (of_int z) as [g|] eqn:E; [|done].
simpl. intros [= <-]. rewrite div_spec.
apply div_1024_finite; [apply Prim2SF_valid|by eapply of_int_finite].
Qed.

(** *** The checked operations return what the plain ones compute *)

Lemma of_int_to_float z f : of_int z = Return f -> f = to_float z.
Proof. unfold of_int. destruct (is_infinity _); [done|]. by intros [= <-]. Qed.

Lemma math_sqrt_sqrt x r : math_sqrt x = Return r -> r = PrimFloat.sqrt x.
Proof. unfold math_sqrt. destruct (_ && _); [done|]. by intros [= <-]. Qed.

(** *** The order on floats that are not NaN *)

Ltac cmp_cases :=
repeat match goal with
| |- context [(?a ?= ?b)%Z] => destruct (Z.compare_spec a b)
| H : context [(?a ?= ?b)%Z] |- _ => destruct (Z.compare_spec a b)
| |- context [(?a ?= ?b)%positive] => destruct (Pos.compare_spec a b)
| H : context [(?a ?= ?b)%positive] |- _ => destruct (Pos.compare_spec a b)
end; simpl in *; try done; try lia.

Lemma SFleb_trans x y z :
SFleb x y = true -> SFleb y z = true -> SFleb x z = true.
Proof.
unfold SFleb, SFcompare.
destruct x as [[]|[]| |[] mx ex], y as [[]|[]| |[] my ey],
  z as [[]|[]| |[] mz ez]; try done;
  change (Pos.compare_cont Eq) with Pos.compare; cmp_cases.
Qed.

Lemma SFltb_false_leb x y :
sf_is_nan x = false -> sf_is_nan y = false ->
SFltb y x = false -> SFleb x y = true.
Proof.
unfold SFleb, SFltb, SFcompare.
destruct x as [[]|[]| |[] mx ex], y as [[]|[]| |[] my ey]; try done;
  change (Pos.compare_cont Eq) with Pos.compare; cmp_cases.
Qed.

Lemma SFltb_leb x y : SFltb x y = true -> SFleb x y = true.
Proof. unfold SFleb, SFltb. by destruct (SFcompare x y) as [[]|]. Qed.

Lemma SFltb_eqb_discr x y k :
SFltb x y = true -> SFeqb y k = true -> SFeqb x k = true -> False.
Proof.
unfold SFeqb, SFltb, SFcompare.
destruct x as [[]|[]| |[] mx ex], y as [[]|[]| |[] my ey],
  k as [[]|[]| |[] mk ek]; try done;
  change (Pos.compare_cont Eq) with Pos.compare; cmp_cases.
Qed.

Lemma leb_trans (x y z : float) :
(x <=? y)%float = true -> (y <=? z)%float = true -> (x <=? z)%float = true.
Proof. rewrite !leb_spec. apply SFleb_trans. Qed.

Lemma ltb_false_leb (x y : float) :
is_nan x = false -> is_nan y = false ->
(y <? x)%float = false -> (x <=? y)%float = true.
Proof. rewrite !is_nan_spec, ltb_spec, leb_spec. apply SFltb_false_leb. Qed.

Lemma ltb_leb (x y : float) :
(x <? y)%float = true -> (x <=? y)%float = true.
Proof. rewrite ltb_spec, leb_spec. apply SFltb_leb. Qed.

Lemma ltb_eqb_discr (x y k : float) :
(x <? y)%float = true -> (y =? k)%float = true -> (x =? k)%float = true ->
False.
Proof. rewrite ltb_spec, !FloatAxioms.eqb_spec. apply SFltb_eqb_discr. Qed.

End FloatFacts.

(** ** Signs in binary64 arithmetic *)

Module FloatSigns.
Import Float FloatFacts.

Lemma sf_nonneg_not_nan x : sf_nonneg x = true -> sf_is_nan x = false.
Proof. by destruct x. Qed.

Lemma binary_round_aux_nonneg m e l :
  0 <= m -> sf_nonneg (binary_round_aux prec emax false m e l) = true.
Proof.
  intros Hm. pose proof (binary_round_aux_not_nan false m e l Hm) as Hn.
  revert Hn. unfold binary_round_aux.
  destruct (shr_fexp prec emax m e l) as [mrs' e'].
  destruct (shr_fexp prec emax _ e' loc_Exact) as [mrs'' e''].
  destruct (shr_m mrs''); [done| |done]. by destruct (_ <=? _).
Qed.

Lemma binary_round_nonneg m e :
  sf_nonneg (binary_round prec emax false m e) = true.
Proof.
  unfold binary_round. destruct (shl_align _ _ _) as [mz ez].
  by apply binary_round_aux_nonneg.
Qed.

Lemma binary_normalize_nonneg z e :
  0 <= z -> sf_nonneg (binary_normalize prec emax z e false) = true.
Proof. destruct z; simpl; [done| |lia]. intros _. apply binary_round_nonneg. Qed.

Lemma SFldexp_nonneg x e :
  sf_nonneg x = true -> sf_nonneg (SFldexp prec emax x e) = true.
Proof.
  destruct x as [s|s| |[] m k]; simpl; try done. intros _.
  apply binary_round_nonneg.
Qed.

Lemma SF2Prim_nonneg x :
  sf_nonneg x = true -> sf_nonneg (Prim2SF (SF2Prim x)) = true.
Proof.
  destruct x as [[]|[]| |[] m e]; try done. intros _. unfold SF2Prim.
  rewrite Z_ldexp_spec. apply SFldexp_nonneg.
  rewrite of_uint63_spec. apply binary_normalize_nonneg.
  apply Uint63.to_Z_bounded.
Qed.

Lemma of_int_nonneg z f :
  0 <= z -> of_int z = Return f -> sf_nonneg (Prim2SF f) = true.
Proof.
  intros Hz ->%of_int_to_float. apply SF2Prim_nonneg.
  by apply binary_normalize_nonneg.
Qed.

Lemma SFmul_self_nonneg x :
  sf_is_nan x = false -> sf_nonneg (SF64mul x x) = true.
Proof.
  unfold SF64mul, SFmul.
  destruct x as [[]|[]| |[] m e]; try done; intros _;
    apply binary_round_aux_nonneg; lia.
Qed.

Lemma cond_Zopp_false z : cond_Zopp false z = z.
Proof. done. Qed.

Lemma SFadd_nonneg x y :
  sf_nonneg x = true -> sf_nonneg y = true ->
  sf_nonneg (SF64add x y) = true.
Proof.
  destruct x as [[]|[]| |[] mx ex], y as [[]|[]| |[] my ey]; try done;
    intros _ _.
  unfold SF64add, SFadd. apply binary_normalize_nonneg.
  rewrite !cond_Zopp_false. lia.
Qed.

Lemma SFsqrt_nonneg x :
  sf_nonneg x = true -> sf_nonneg (SF64sqrt x) = true.
Proof.
  destruct x as [[]|[]| |[] m e]; try done. intros _.
  unfold SF64sqrt, SFsqrt.
  destruct (SFsqrt_core_binary prec emax (Z.pos m) e) as [[mz ez] lz] eqn:E.
  apply binary_round_aux_nonneg.
  unfold SFsqrt_core_binary in E.
  destruct (Z.sqrtrem _) as [q r] eqn:Eq in E.
  injection E as <- _ _.
  match type of Eq with Z.sqrtrem ?a = _ =>
    pose proof (Z.sqrtrem_sqrt a) as Hs; rewrite Eq in Hs end.
  simpl in Hs. subst q. apply Z.sqrt_nonneg.
Qed.

Lemma SFleb_zero_nonneg x :
  sf_nonneg x = true -> SFleb (S754_zero false) x = true.
Proof. by destruct x as [[]|[]| |[] m e]. Qed.

Lemma SFleb_antisym x y :
  SFleb x y = true -> SFleb y x = true -> SFeqb x y = true.
Proof.
  unfold SFleb, SFeqb, SFcompare.
  destruct x as [[]|[]| |[] mx ex], y as [[]|[]| |[] my ey]; try done;
    change (Pos.compare_cont Eq) with Pos.compare; cmp_cases.
Qed.

End FloatSigns.

(** ** Magnitudes in binary64 arithmetic

    Rounding a mantissa of [k] bits at exponent [e] gives a finite float of
    magnitude at most [k + e + 1]; so the operations of [distance] on
    64-bit integers stay far from the overflow threshold. *)

Module FloatBounds.
Import Float FloatFacts.

Lemma sf_mag_le_finite K x : sf_mag_le K x -> sf_finite x = true.
Proof. by destruct x. Qed.

Lemma sf_mag_le_mono K K' x : K <= K' -> sf_mag_le K x -> sf_mag_le K' x.
Proof. destruct x; simpl; try done. intros ? [? ?]. split; [done|lia]. Qed.

Lemma Zdigits2_div_pow2 m n d :
  0 <= n -> 0 <= m -> Zdigits2 m <= d -> 0 <= d ->
  Zdigits2 (m / 2 ^ n) <= Z.max 0 (d - n).
Proof.
  intros Hn Hm Hd Hd0.
  pose proof (Zdigits2_gt m Hm) as Hlt.
  assert (m < 2 ^ d) as Hmd.
  { eapply Z.lt_le_trans; [exact Hlt|]. apply Z.pow_le_mono_r; lia. }
  apply Zdigits2_le; [lia|]. split; [apply Z.div_pos; lia|].
  destruct (Z.le_gt_cases n d).
  - rewrite Z.max_r by lia. apply Z.div_lt_upper_bound; [lia|].
    rewrite <- Z.pow_add_r by lia. by replace (n + (d - n)) with d by lia.
  - rewrite Z.max_l by lia. rewrite Z.div_small; [done|]. split; [done|].
    eapply Z.lt_le_trans; [exact Hmd|]. apply Z.pow_le_mono_r; lia.
Qed.

Lemma Zdigits2_pos_div m n :
  0 <= n -> 0 < m / 2 ^ n -> Zdigits2 (m / 2 ^ n) + n <= Zdigits2 m.
Proof.
  intros Hn Hpos.
  assert (0 <= m) as Hm.
  { destruct (Z.le_gt_cases 0 m); [done|].
    assert (m / 2 ^ n < 0); [|lia]. apply Z.div_lt_upper_bound; lia. }
  pose proof (Zdigits2_nonneg m) as Hdm.
  pose proof (Zdigits2_div_pow2 m n (Zdigits2 m) Hn Hm ltac:(lia) ltac:(lia))
    as Hdiv.
  destruct (Z.le_gt_cases n (Zdigits2 m)) as [Hle|Hgt]; [lia|].
  rewrite Z.max_l in Hdiv by lia.
  pose proof (Zdigits2_nonneg (m / 2 ^ n)) as Hq.
  destruct (m / 2 ^ n); simpl in *; lia.
Qed.

Lemma Zdigits2_53 m : Zdigits2 (Z.pos m) <= 53 -> Z.pos m < 2 ^ 53.
Proof.
  intros H. pose proof (Zdigits2_gt (Z.pos m) ltac:(lia)).
  eapply Z.lt_le_trans; [done|]. apply Z.pow_le_mono_r; lia.
Qed.

Lemma binary_round_aux_mag s m e l k K :
  0 <= k -> 0 <= m < 2 ^ k -> e <= 971 ->
  k + e + 1 <= K -> -1073 <= K -> K <= 1024 ->
  sf_mag_le K (binary_round_aux prec emax s m e l).
Proof.
  intros Hk [Hm Hlt] He HK HKlo HKhi. unfold binary_round_aux.
  destruct (shr_fexp prec emax m e l) as [mrs' e'] eqn:E1.
  pose proof (shr_fexp_spec m e l Hm) as [Hm1 He1]. rewrite E1 in Hm1, He1.
  simpl in Hm1, He1.
  pose proof (round_nearest_even_bounds (shr_m mrs') (loc_of_shr_record mrs')) as Hr.
  assert (0 <= shr_m mrs') as H0 by (rewrite Hm1; apply Z.div_pos; lia).
  set (m1 := round_nearest_even _ _) in *.
  destruct (shr_fexp prec emax m1 e' loc_Exact) as [mrs'' e''] eqn:E2.
  pose proof (shr_fexp_spec m1 e' loc_Exact ltac:(lia)) as [Hm2 He2].
  rewrite E2 in Hm2, He2. simpl in Hm2, He2.
  pose proof (Zdigits2_le m k Hk (conj Hm Hlt)) as Hd.
  pose proof (Zdigits2_nonneg m) as Hd0.
  pose proof (Zdigits2_nonneg m1) as Hd10.
  set (n1 := Z.max 0 (fexp prec emax (Zdigits2 m + e) - e)) in *.
  set (n2 := Z.max 0 (fexp prec emax (Zdigits2 m1 + e') - e')) in *.
  assert (Zdigits2 m1 + e' <= K) as Hd1.
  { destruct (Z.le_gt_cases n1 k) as [Hle|Hgt].
    - assert (shr_m mrs' < 2 ^ (k - n1)) as Hb.
      { rewrite Hm1. apply Z.div_lt_upper_bound; [lia|].
        rewrite <- Z.pow_add_r by lia. replace (n1 + (k - n1)) with k by lia. done. }
      assert (Zdigits2 m1 <= k - n1 + 1); [|lia].
      apply Zdigits2_le; [lia|]. rewrite Z.pow_add_r by lia. change (2 ^ 1) with 2. lia.
    - assert (shr_m mrs' = 0) as Hb.
      { rewrite Hm1. apply Z.div_small. split; [done|].
        eapply Z.lt_le_trans; [exact Hlt|]. apply Z.pow_le_mono_r; lia. }
      assert (Zdigits2 m1 <= 1).
      { apply Zdigits2_le; [lia|]. change (2 ^ 1) with 2. lia. }
      unfold fexp, SpecFloat.emin, prec, emax in *. lia. }
  assert (e'' <= 971) as He''.
  { unfold fexp, SpecFloat.emin, prec, emax in *. lia. }
  destruct (shr_m mrs'') as [|p|p] eqn:Ep; [done| |].
  - unfold emax, prec. replace (e'' <=? 1024 - 53) with true
      by (symmetry; apply Z.leb_le; lia).
    assert (0 < m1 / 2 ^ n2) as Hpos by (rewrite <- Hm2; lia).
    pose proof (Zdigits2_pos_div m1 n2 ltac:(lia) Hpos) as Hdd.
    rewrite <- Hm2 in Hdd. change (Zdigits2 (Z.pos p)) with (Z.pos (digits2_pos p)) in Hdd.
    split; [|lia].
    apply Zdigits2_53. change (Zdigits2 (Z.pos p)) with (Z.pos (digits2_pos p)).
    unfold fexp, SpecFloat.emin, prec, emax in *. lia.
  - assert (0 <= m1 / 2 ^ n2) by (apply Z.div_pos; lia). lia.
Qed.

Lemma Pos_iter_xO p n : Z.pos (Pos.iter xO p n) = Z.pos p * 2 ^ Z.pos n.
Proof.
  induction n as [|n IH] using Pos.peano_ind.
  - simpl. lia.
  - rewrite Pos.iter_succ, Pos2Z.inj_xO, IH, Pos2Z.inj_succ, Z.pow_succ_r by lia.
    ring.
Qed.

Lemma shl_align_spec m e e' :
  let '(mz, ez) := shl_align m e e' in
  ez = Z.min e e' ∧ Z.pos mz = Z.pos m * 2 ^ (e - ez).
Proof.
  unfold shl_align. destruct (e' - e) as [|d|d] eqn:E.
  - split; [lia|]. rewrite Z.sub_diag. simpl. lia.
  - split; [lia|]. rewrite Z.sub_diag. simpl. lia.
  - split; [lia|]. rewrite Pos_iter_xO. f_equal. f_equal. lia.
Qed.

Lemma binary_round_mag s m e K :
  Z.pos (digits2_pos m) + e + 1 <= K -> -1073 <= K -> K <= 1024 ->
  sf_mag_le K (binary_round prec emax s m e).
Proof.
  intros HK HKlo HKhi. unfold binary_round.
  set (d := Z.pos (digits2_pos m)) in *.
  pose proof (shl_align_spec m e (fexp prec emax (d + e))) as Hs.
  destruct (shl_align _ _ _) as [mz ez]. destruct Hs as [Hez Hmz].
  pose proof (Zdigits2_gt (Z.pos m) ltac:(lia)) as Hd.
  change (Zdigits2 (Z.pos m)) with d in Hd.
  assert (0 <= e - ez) by lia.
  apply (binary_round_aux_mag _ _ _ _ (d + (e - ez))); try lia.
  - rewrite Hmz, Z.pow_add_r by lia.
    assert (0 < 2 ^ (e - ez)) by (apply Z.pow_pos_nonneg; lia). nia.
  - unfold fexp, SpecFloat.emin, prec, emax in *. lia.
Qed.

Lemma binary_normalize_mag z k K :
  0 <= k -> Z.abs z < 2 ^ k -> k + 1 <= K -> -1073 <= K -> K <= 1024 ->
  sf_mag_le K (binary_normalize prec emax z 0 false).
Proof.
  intros Hk Hz HK HKlo HKhi.
  assert (∀ p, Z.pos p < 2 ^ k -> Z.pos (digits2_pos p) <= k) as Hdig.
  { intros p Hp. apply (Zdigits2_le (Z.pos p)); lia. }
  destruct z as [|p|p]; simpl; [done|..];
    apply binary_round_mag; try lia; specialize (Hdig p); lia.
Qed.

Lemma SFldexp_mag x e K K' :
  sf_mag_le K x -> K + e + 1 <= K' -> -1073 <= K' -> K' <= 1024 ->
  sf_mag_le K' (SFldexp prec emax x e).
Proof.
  destruct x as [s|s| |s m k]; simpl; try done. intros [_ Hm] ? ? ?.
  apply binary_round_mag; lia.
Qed.

Lemma SFopp_mag K x : sf_mag_le K x -> sf_mag_le K (SFopp x).
Proof. by destruct x. Qed.

Lemma SF2Prim_mag x K :
  sf_mag_le K x -> 0 <= K -> K + 60 <= 1024 ->
  sf_mag_le (K + 60) (Prim2SF (SF2Prim x)).
Proof.
  destruct x as [[]|[]| |s m e]; try done. intros [Hm53 Hmag] HK0 HK.
  assert (sf_mag_le (K + 60)
            (Prim2SF (Z.ldexp (of_uint63 (Uint63.of_Z (Z.pos m))) e))) as H.
  { rewrite Z_ldexp_spec, of_uint63_spec.
    assert (Uint63.to_Z (Uint63.of_Z (Z.pos m)) = Z.pos m) as ->.
    { rewrite Uint63.of_Z_spec. apply Z.mod_small. split; [lia|].
      eapply Z.lt_le_trans; [exact Hm53|].
      unfold Uint63.wB. change (Z.of_nat Uint63.size) with 63.
      apply Z.pow_le_mono_r; lia. }
    pose proof (Zdigits2_gt (Z.pos m) ltac:(lia)) as Hd.
    change (Zdigits2 (Z.pos m)) with (Z.pos (digits2_pos m)) in Hd.
    set (d := Z.pos (digits2_pos m)) in *.
    assert (d <= 53).
    { destruct (Z.le_gt_cases d 53); [done|]. exfalso.
      pose proof (Pos.size_le m) as Hs. rewrite <- digits2_pos_size in Hs.
      assert (2 ^ d <= Z.pos m~0) as Hs'.
      { subst d. rewrite <- Pos2Z.inj_pow. by apply Pos2Z.pos_le_pos. }
      assert (2 ^ 54 <= 2 ^ d) by (apply Z.pow_le_mono_r; lia).
      change (2 ^ 54) with (2 * 2 ^ 53) in *. lia. }
    eapply (SFldexp_mag _ _ (d + 1)); [|lia..].
    apply (binary_normalize_mag _ d); try lia. }
  unfold SF2Prim. destruct s; [|done]. rewrite opp_spec. by apply SFopp_mag.
Qed.

(** A 130-bit integer converts, to a float of magnitude at most 2 ^ 200. *)
Lemma of_int_returns z k :
  0 <= k <= 130 -> Z.abs z < 2 ^ k ->
  ∃ f, of_int z = Return f ∧ sf_mag_le (k + 61) (Prim2SF f).
Proof.
  intros Hk Hz. unfold of_int.
  pose proof (binary_normalize_mag z k (k + 1) ltac:(lia) Hz ltac:(lia)
                ltac:(lia) ltac:(lia)) as H.
  apply SF2Prim_mag in H; [|lia..].
  replace (k + 1 + 60) with (k + 61) in H by lia.
  rewrite is_infinity_spec.
  destruct (Prim2SF (SF2Prim _)) eqn:E; try done; simpl; eexists; split;
    try done; by rewrite E.
Qed.

End FloatBounds.

Module FloatBounds2.
Import Float FloatFacts FloatBounds.

Lemma binary_normalize_mag_at z e k K :
  0 <= k -> Z.abs z < 2 ^ k -> k + e + 1 <= K -> -1073 <= K -> K <= 1024 ->
  sf_mag_le K (binary_normalize prec emax z e false).
Proof.
  intros Hk Hz HK HKlo HKhi.
  assert (∀ p, Z.pos p < 2 ^ k -> Z.pos (digits2_pos p) <= k) as Hdig.
  { intros p Hp. apply (Zdigits2_le (Z.pos p)); lia. }
  destruct z as [|p|p]; simpl; [done|..];
    apply binary_round_mag; try lia; specialize (Hdig p); lia.
Qed.

Lemma div_1024_mag x K :
  sf_mag_le K x -> -1073 <= K -> K <= 1023 ->
  sf_mag_le (K + 1) (SF64div x (Prim2SF 1024)).
Proof.
  change (Prim2SF 1024) with (S754_finite false 4503599627370496 (-42)).
  destruct x as [sx|sx| |sx m e]; try done. intros [_ Hmag] HKlo HKhi.
  unfold SF64div, SFdiv.
  destruct (SFdiv_core_binary _ _ _ _ _ _) as [[mz ez] lz] eqn:E.
  unfold SFdiv_core_binary in E.
  change (Zdigits2 (Z.pos m)) with (Z.pos (digits2_pos m)) in E.
  change (Zdigits2 4503599627370496) with 53 in E.
  set (d := Z.pos (digits2_pos m)) in *.
  set (e' := Z.min _ _) in E.
  set (m' := match e - -42 - e' with 0 => _ | Z.pos _ => _ | Z.neg _ => _ end) in E.
  revert E. destruct (IntDef.Z.div_eucl m' 4503599627370496) as [q r] eqn:Ed.
  assert (q = m' / 2 ^ 52) as Hq.
  { unfold Z.div. change (Z.div_eucl m' (2 ^ 52)) with (IntDef.Z.div_eucl m' 4503599627370496).
    by rewrite Ed. }
  intros [= <- <- <-].
  assert (e' <= Z.max (K - 64) (-1074) /\ e' <= e + 42) as [He'1 He'2].
  { subst e'. unfold fexp, SpecFloat.emin, prec, emax. lia. }
  set (s := e + 42 - e') in *.
  assert (0 <= m' < 2 ^ (d + s)) as Hm'.
  { pose proof (Zdigits2_gt (Z.pos m) ltac:(lia)) as Hd.
    change (Zdigits2 (Z.pos m)) with d in Hd.
    assert (m' = Z.pos m * 2 ^ s) as ->.
    { subst m'. replace (e - -42 - e') with s by lia.
      destruct s eqn:Es; [rewrite Z.mul_1_r; done| |lia].
      change (IntDef.Z.shiftl (Z.pos m) (Z.pos p)) with (Z.shiftl (Z.pos m) (Z.pos p)).
      by rewrite Z.shiftl_mul_pow2. }
    rewrite Z.pow_add_r by lia.
    assert (0 < 2 ^ s) by (apply Z.pow_pos_nonneg; lia). nia. }
  assert (0 <= q) as Hq0 by (rewrite Hq; apply Z.div_pos; lia).
  apply (binary_round_aux_mag _ _ _ _ (Z.max 0 (d + s - 52))); try lia.
  split; [done|]. rewrite Hq.
  destruct (Z.le_gt_cases 52 (d + s)) as [Hle|Hgt].
  - rewrite Z.max_r by lia. apply Z.div_lt_upper_bound; [lia|].
    rewrite <- Z.pow_add_r by lia. replace (52 + (d + s - 52)) with (d + s) by lia. lia.
  - rewrite Z.max_l by lia. rewrite Z.div_small; [lia|]. split; [lia|].
    eapply Z.lt_le_trans; [apply Hm'|]. apply Z.pow_le_mono_r; lia.
Qed.

Lemma shl_align_fst_bound m e ez K :
  ez <= e -> Z.pos (digits2_pos m) + e <= K ->
  Z.pos (fst (shl_align m e ez)) < 2 ^ (K - ez).
Proof.
  intros Hez HK. pose proof (shl_align_spec m e ez) as Hs.
  destruct (shl_align m e ez) as [mz ez']. destruct Hs as [-> Hmz]. simpl.
  rewrite Z.min_r in Hmz by lia. rewrite Hmz.
  pose proof (Zdigits2_gt (Z.pos m) ltac:(lia)) as Hd.
  change (Zdigits2 (Z.pos m)) with (Z.pos (digits2_pos m)) in Hd.
  set (d := Z.pos (digits2_pos m)) in *.
  assert (2 ^ d * 2 ^ (e - ez) <= 2 ^ (K - ez)).
  { rewrite <- Z.pow_add_r by lia. apply Z.pow_le_mono_r; lia. }
  assert (0 < 2 ^ (e - ez)) by (apply Z.pow_pos_nonneg; lia). nia.
Qed.

Lemma SFsub_mag x y K :
  sf_mag_le K x -> sf_mag_le K y -> -1073 <= K -> K + 2 <= 1024 ->
  sf_mag_le (K + 2) (SF64sub x y).
Proof.
  destruct x as [sx|sx| |sx mx ex], y as [sy|sy| |sy my ey]; try done.
  - intros _ _ _ _. by destruct sx, sy.
  - intros _ [? ?] ? ?. simpl. split; [done|lia].
  - intros [? ?] _ ? ?. simpl. split; [done|lia].
  - intros [_ Hx] [_ Hy] HKlo HKhi. unfold SF64sub, SFsub.
    set (ez := Z.min ex ey).
    pose proof (shl_align_fst_bound mx ex ez K ltac:(lia) Hx) as Hbx.
    pose proof (shl_align_fst_bound my ey ez K ltac:(lia) Hy) as Hby.
    set (a := Z.pos (fst (shl_align mx ex ez))) in *.
    set (b := Z.pos (fst (shl_align my ey ez))) in *.
    assert (0 < a ∧ 0 < b) as [Ha Hb] by (subst a b; lia).
    assert (0 <= K - ez).
    { assert (1 <= Z.pos (digits2_pos mx)) by lia. lia. }
    apply (binary_normalize_mag_at _ _ (K - ez + 1)); try lia.
    rewrite Z.pow_add_r by lia. change (2 ^ 1) with 2.
    destruct sx, sy; simpl; lia.
Qed.

Lemma SFmul_self_mag x K :
  sf_mag_le K x -> 0 <= K -> K <= 400 ->
  sf_mag_le (2 * K + 1) (SF64mul x x).
Proof.
  destruct x as [sx|sx| |sx m e]; try done. intros [_ Hmag] HK0 HK.
  unfold SF64mul, SFmul.
  pose proof (Zdigits2_gt (Z.pos m) ltac:(lia)) as Hd.
  change (Zdigits2 (Z.pos m)) with (Z.pos (digits2_pos m)) in Hd.
  set (d := Z.pos (digits2_pos m)) in *.
  assert (1 <= d) by (subst d; lia).
  apply (binary_round_aux_mag _ _ _ _ (d + d)); try lia.
  rewrite Pos2Z.inj_mul, Z.pow_add_r by lia. nia.
Qed.

Lemma int_div_1024_returns z :
  int64 z -> ∃ f, int_div z 1024 = Return f ∧ sf_mag_le 126 (Prim2SF f).
Proof.
  intros [Hlo Hhi].
  destruct (of_int_returns z 64) as (f & Hf & Hmag); [lia| |].
  { change (2 ^ 64) with (2 * 2 ^ 63). lia. }
  unfold int_div. rewrite Hf. simpl. eexists. split; [done|].
  rewrite div_spec. by apply (div_1024_mag _ 125).
Qed.

Lemma square_int64_bound a b : int64 a -> int64 b -> Z.abs ((a - b) ^ 2) < 2 ^ 130.
Proof.
  unfold int64. intros Ha Hb. rewrite Z.pow_2_r.
  assert (Z.abs (a - b) < 2 ^ 64) by (change (2 ^ 64) with (2 * 2 ^ 63); lia).
  rewrite Z.abs_mul. change (2 ^ 130) with (2 ^ 64 * 2 ^ 64 * 4). nia.
Qed.

End FloatBounds2.

(** ** The power [** 2] *)

Module FloatPow.
Import Float FloatFacts FloatSigns FloatBounds FloatBounds2.

Lemma SFabs_not_nan x : sf_is_nan x = false -> sf_is_nan (SFabs x) = false.
Proof. by destruct x. Qed.

Lemma SFabs_mag K x : sf_mag_le K x -> sf_mag_le K (SFabs x).
Proof. by destruct x. Qed.

Lemma pow2_nonneg {libm : Libm} x r :
  is_nan x = false -> pow2 x = Return r -> sf_nonneg (Prim2SF r) = true.
Proof.
  intros Hx. unfold pow2. rewrite Hx.
  destruct (is_infinity x); [intros [= <-]; reflexivity|].
  destruct (x =? 0)%float; [intros [= <-]; reflexivity|].
  destruct (abs x =? 1)%float; [intros [= <-]; reflexivity|].
  destruct (is_infinity _); [done|]. intros [= <-].
  apply libm_pow_2_nonneg. rewrite is_nan_spec, abs_spec.
  apply SFabs_not_nan. by rewrite <- is_nan_spec.
Qed.

Lemma pow2_not_nan {libm : Libm} x r :
  is_nan x = false -> pow2 x = Return r -> is_nan r = false.
Proof.
  intros Hx Hr. rewrite is_nan_spec. apply sf_nonneg_not_nan.
  by eapply pow2_nonneg.
Qed.

Lemma pow2_raise {libm : Libm} x e : pow2 x = Raise e -> e = OverflowError.
Proof.
  unfold pow2. destruct (is_nan x); [done|]. destruct (is_infinity x); [done|].
  destruct (x =? 0)%float; [done|]. destruct (abs x =? 1)%float; [done|].
  destruct (is_infinity _); [|done]. by intros [= <-].
Qed.

(** The checked power returns what [square] computes. *)
Lemma pow2_square {libm : Libm} x r : pow2 x = Return r -> r = square x.
Proof.
  unfold pow2, square. destruct (is_nan x); [by intros [= <-]|].
  destruct (is_infinity x); [by intros [= <-]|].
  destruct (x =? 0)%float; [by intros [= <-]|].
  destruct (abs x =? 1)%float; [by intros [= <-]|].
  destruct (is_infinity _); [done|]. by intros [= <-].
Qed.

Lemma pow2_returns {libm : Libm} x K :
  sf_mag_le K (Prim2SF x) -> 0 <= K -> K <= 256 ->
  ∃ r, pow2 x = Return r.
Proof.
  intros Hx HK0 HK. unfold pow2.
  pose proof (sf_mag_le_finite _ _ Hx) as Hfin.
  rewrite sf_finite_spec, <- is_nan_spec, <- is_infinity_spec in Hfin.
  apply andb_prop in Hfin as [Hn Hi]. apply negb_true_iff in Hn, Hi.
  rewrite Hn, Hi.
  destruct (x =? 0)%float; [by eexists|].
  destruct (abs x =? 1)%float; [by eexists|].
  rewrite libm_pow_2_finite; [by eexists|].
  rewrite abs_spec. apply SFabs_mag. by apply (sf_mag_le_mono K).
Qed.

(** The rounded product has what is asked of [pow(x, 2.0)]. *)
Lemma mul_self_nonneg (x : float) :
  is_nan x = false -> sf_nonneg (Prim2SF (x * x)) = true.
Proof.
  rewrite is_nan_spec, mul_spec. apply SFmul_self_nonneg.
Qed.

Lemma mul_self_finite (x : float) :
  sf_mag_le 256 (Prim2SF x) -> is_infinity (x * x) = false.
Proof.
  intros Hx. pose proof (SFmul_self_mag _ _ Hx ltac:(lia) ltac:(lia)) as Hm.
  apply sf_mag_le_finite in Hm. rewrite <- mul_spec in Hm.
  rewrite sf_finite_spec, <- is_infinity_spec in Hm.
  apply andb_prop in Hm as [_ Hm]. by apply negb_true_iff in Hm.
Qed.

End FloatPow.

(** A libm whose [pow(x, 2.0)] is the rounded product [x * x]: the library
    of the examples below, in which every square that is taken is exact. *)
#[global] Instance libm_product : Libm :=
  {| libm_pow_2 x := (x * x)%float;
     libm_pow_2_nonneg := FloatPow.mul_self_nonneg;
     libm_pow_2_finite := FloatPow.mul_self_finite |}.



(** ** The stable sort *)

Section sorting.
Import FloatFacts.

Lemma insert_by_perm c l : insert_by c l ≡ₚ c :: l.
Proof.
  induction l as [|d l IH]; simpl; [done|].
  destruct (Score d <? Score c)%float; [|done].
  rewrite IH. apply Permutation_swap.
Qed.

Lemma sort_by_score_perm l : sort_by_score l ≡ₚ l.
Proof.
  induction l as [|c l IH]; simpl; [done|].
  by rewrite insert_by_perm, IH.
Qed.

Lemma sort_by_score_nil l : sort_by_score l = [] -> l = [].
Proof.
  intros H. apply Permutation_nil_r. rewrite <- H.
  symmetry. apply sort_by_score_perm.
Qed.

Lemma insert_by_sorted c l :
  not_nan c -> Forall not_nan l ->
  StronglySorted score_le l -> StronglySorted score_le (insert_by c l).
Proof.
  intros Hc. induction l as [|d l IH]; simpl; intros Hn Hs.
  - repeat constructor.
  - apply Forall_cons in Hn as [Hd Hn].
    apply StronglySorted_inv in Hs as [Hs Hdl].
    destruct (Score d <? Score c)%float eqn:E.
    + constructor; [by apply IH|].
      rewrite insert_by_perm. constructor; [|done].
      by apply ltb_leb.
    + assert (score_le c d) as Hcd by (by apply ltb_false_leb).
      constructor; [by constructor|].
      constructor; [done|].
      eapply Forall_impl; [exact Hdl|].
      intros e Hde. unfold score_le in *. by eapply leb_trans.
Qed.

Lemma sort_by_score_sorted l :
  Forall not_nan l -> StronglySorted score_le (sort_by_score l).
Proof.
  induction l as [|c l IH]; simpl; intros Hn; [constructor|].
  apply Forall_cons in Hn as [Hc Hn].
  apply insert_by_sorted; [done| |by apply IH].
  by rewrite sort_by_score_perm.
Qed.

(** Insertion passes only strictly smaller scores, so it never overtakes
    a candidate of the same score. *)
Lemma insert_by_filter k c l :
  filter (same_score k) (insert_by c l) = filter (same_score k) (c :: l).
Proof.
  induction l as [|d l IH]; simpl; [done|].
  destruct (Score d <? Score c)%float eqn:E; [|done].
  rewrite filter_cons, IH, !filter_cons.
  destruct (decide (same_score k d)) as [Hd|Hd]; [|done].
  destruct (decide (same_score k c)) as [Hc|Hc]; [|done].
  exfalso. unfold same_score in *.
  apply Is_true_true in Hd, Hc. by eapply ltb_eqb_discr.
Qed.

Lemma sort_by_score_stable k l :
  filter (same_score k) (sort_by_score l) = filter (same_score k) l.
Proof.
  induction l as [|c l IH]; simpl; [done|].
  by rewrite insert_by_filter, !filter_cons, IH.
Qed.

Lemma slice_to_prefix {A} (l : list A) n : slice_to l n `prefix_of` l.
Proof.
  unfold slice_to. destruct (0 <=? n); eexists; symmetry; apply take_drop.
Qed.

Lemma slice_to_length {A} (l : list A) n :
  Z.of_nat (length (slice_to l n)) =
    if 0 <=? n then Z.min n (Z.of_nat (length l))
    else Z.max 0 (Z.of_nat (length l) + n).
Proof.
  unfold slice_to. destruct (0 <=? n) eqn:E; rewrite length_take.
  - apply Z.leb_le in E. lia.
  - apply Z.leb_gt in E. lia.
Qed.

Lemma filter_prefix {A} (P : A -> Prop) `{!∀ x, Decision (P x)} (l1 l2 : list A) :
  l1 `prefix_of` l2 -> filter P l1 `prefix_of` filter P l2.
Proof. intros [k ->]. rewrite filter_app. by eexists. Qed.

Lemma StronglySorted_prefix {A} (R : relation A) (l1 l2 : list A) :
  l1 `prefix_of` l2 -> StronglySorted R l2 -> StronglySorted R l1.
Proof. intros [k ->]. apply StronglySorted_app_1_l. Qed.

End sorting.

(** ** Labels and the matrix *)

Section matrix.

Lemma index_astype_str df : str <$> index (astype_str df) = str <$> index df.
Proof. simpl. rewrite <- !list_fmap_compose. by apply list_fmap_ext. Qed.

Lemma loc_astype_str df key : loc (astype_str df) key = loc df key.
Proof.
  unfold loc. simpl. generalize (cells df).
  induction (index df) as [|l ls IH]; intros [|b bs]; simpl; try done.
  rewrite !filter_cons. simpl.
  destruct (decide (str l = key)); simpl; by rewrite IH.
Qed.

Lemma items_astype_str df current r :
  str <$> (fst <$> filter (λ p, p.2 = true ∧ str p.1 ≠ current)
                     (items (astype_str df) r)) =
  str <$> (fst <$> filter (λ p, p.2 = true ∧ str p.1 ≠ current)
                     (items df r)).
Proof.
  unfold items. simpl. revert r.
  induction (columns df) as [|l ls IH]; intros [|b bs]; simpl; try done.
  rewrite !filter_cons. simpl.
  destruct (decide (b = true ∧ str l ≠ current)); simpl; by rewrite IH.
Qed.

Lemma compatible_names_astype_str df current :
  compatible_names (astype_str df) current = compatible_names df current.
Proof.
  unfold compatible_names. rewrite loc_astype_str.
  assert (match columns (astype_str df) with
          | [] => Return []
          | _ :: _ => Raise AmbiguousTruthValue
          end = match columns df with
                | [] => Return []
                | _ :: _ => Raise AmbiguousTruthValue
                end :> res (list string)) as Hc.
  { simpl. by destruct (columns df). }
  destruct (loc df current) as [|r [|r' rs]];
    by rewrite ?items_astype_str, ?Hc.
Qed.

Lemma astype_str_idemp df : astype_str (astype_str df) = astype_str df.
Proof.
  unfold astype_str. simpl. f_equal;
    rewrite <- !list_fmap_compose; by apply list_fmap_ext.
Qed.

Lemma astype_str_id df :
  all_strings (index df) -> all_strings (columns df) -> astype_str df = df.
Proof.
  intros Hi Hc. destruct df as [ix cs ce]. unfold astype_str. simpl in *.
  f_equal; rewrite <- list_fmap_compose;
    (etrans; [|apply list_fmap_id]); apply Forall_fmap_ext;
    (eapply Forall_impl; [eassumption|]); by intros l [s ->].
Qed.



Lemma compatible_names_not_current df current names :
  compatible_names df current = Return names -> current ∉ names.
Proof.
  unfold compatible_names.
  destruct (loc df current) as [|r [|r' rs]].
  - destruct (columns df); [|done]. intros [= <-]. apply not_elem_of_nil.
  - intros [= <-].
    rewrite list_elem_of_fmap. intros (lt & Heq & Hin).
    apply list_elem_of_fmap in Hin as ([lt' b] & -> & Hin).
    apply list_elem_of_filter in Hin as [[_ Hne] _]. simpl in *. done.
  - destruct (columns df); [|done]. intros [= <-]. apply not_elem_of_nil.
Qed.

End matrix.

(** ** Scoring and the feasibility pass *)

Section engine.
Import Float FloatFacts FloatPow.
Context {libm : Libm}.

Lemma distance_euclidean v m g req d :
  distance v m g req = Return d ->
  d = euclidean v m g (vcpus req) (memory_mib req) (gpus req).
Proof.
  unfold distance, int_div, int_add, add_int, euclidean.
  destruct (of_int m) as [fm|] eqn:Em; [|done].
  destruct (of_int (memory_mib req)) as [fr|] eqn:Er; [|done]. simpl.
  destruct (pow2 _) as [m2|] eqn:Ep; [|done]. simpl.
  destruct (of_int ((v - _) ^ 2)) as [fv|] eqn:Ev; [|done]. simpl.
  destruct (of_int ((g - _) ^ 2)) as [fg|] eqn:Eg; [|done]. simpl.
  intros ->%math_sqrt_sqrt.
  apply of_int_to_float in Em, Er, Ev, Eg. apply pow2_square in Ep.
  by subst.
Qed.

Lemma distance_not_nan v m g req d :
  distance v m g req = Return d -> is_nan d = false.
Proof.
  unfold distance.
  destruct (int_div m 1024) as [ms|] eqn:Em; [|done].
  destruct (int_div (memory_mib req) 1024) as [rs|] eqn:Er; [|done]. simpl.
  destruct (pow2 _) as [m2|] eqn:Ep; [|done]. simpl.
  unfold int_add, add_int.
  destruct (of_int ((v - _) ^ 2)) as [fv|] eqn:Ev; [|done]. simpl.
  destruct (of_int ((g - _) ^ 2)) as [fg|] eqn:Eg; [|done]. simpl.
  apply math_sqrt_not_nan.
  apply int_div_1024_finite in Em, Er. apply of_int_finite in Ev, Eg.
  rewrite is_nan_spec, add_spec. apply SFadd_not_nan_r; [|done].
  rewrite add_spec. apply SFadd_not_nan_l; [done|].
  rewrite <- is_nan_spec. eapply pow2_not_nan; [|done].
  rewrite is_nan_spec, sub_spec. by apply SFsub_not_nan.
Qed.

Lemma evaluate_Some name_map req t c :
  evaluate name_map req t = Return (Some c) ->
  ∃ inst,
    name_map !! t = Some inst ∧ inst ≠ ∅ ∧
    c = {| InstanceType := t; vCPUs := get_int inst "vCPUs";
           MemoryMiB := get_int inst "MemoryMiB";
           GPUs := get_int inst "GPUs"; Score := Score c |} ∧
    vcpus req <= vCPUs c ∧ memory_mib req <= MemoryMiB c ∧
    gpus req <= GPUs c ∧
    distance (vCPUs c) (MemoryMiB c) (GPUs c) req = Return (Score c).
Proof.
  unfold evaluate. destruct (name_map !! t) as [inst|]; [|done].
  destruct (decide (inst = ∅)); [done|].
  destruct (_ || _) eqn:Et; [done|].
  destruct (distance _ _ _ _) as [d|] eqn:Ed; [|done]. simpl.
  intros [= <-]. exists inst. simpl.
  apply orb_false_elim in Et as [[H1 H2]%orb_false_elim H3].
  apply Z.ltb_ge in H1, H2, H3. done.
Qed.

Lemma evaluate_infeasible name_map req t :
  feasible name_map req t = false -> evaluate name_map req t = Return None.
Proof.
  unfold feasible, evaluate. destruct (name_map !! t) as [inst|]; [|done].
  destruct (decide (inst = ∅)); [done|].
  rewrite bool_decide_true by done. simpl.
  rewrite !andb_false_iff, !Z.leb_gt, <- !Z.ltb_lt.
  intros [[->| ->]| ->]; by rewrite ?orb_true_r.
Qed.

Lemma evaluate_feasible name_map req t :
  feasible name_map req t = true ->
  evaluate name_map req t <> Return None.
Proof.
  unfold feasible, evaluate. destruct (name_map !! t) as [inst|]; [|done].
  rewrite !andb_true_iff, bool_decide_eq_true, !Z.leb_le, <- !Z.ltb_ge.
  intros [[[? ->] ->] ->]. destruct (decide (inst = ∅)); [done|]. simpl.
  by destruct (distance _ _ _ _).
Qed.

Lemma evaluate_all_names name_map req names cs :
  evaluate_all name_map req names = Return cs ->
  InstanceType <$> cs = filter (λ t, feasible name_map req t) names ∧
  Forall (λ c, evaluate name_map req (InstanceType c) = Return (Some c)) cs.
Proof.
  revert cs. induction names as [|t names IH]; simpl; intros cs.
  - by intros [= <-].
  - destruct (evaluate name_map req t) as [c|] eqn:Et; [|done]. simpl.
    destruct (evaluate_all name_map req names) as [cs'|]; [|done]. simpl.
    intros [= <-]. destruct (IH _ eq_refl) as [IH1 IH2].
    rewrite filter_cons. destruct c as [c|].
    + pose proof (evaluate_Some _ _ _ _ Et) as (inst & _ & _ & Hc & _).
      assert (InstanceType c = t) as Ht by (by rewrite Hc).
      destruct (decide (feasible name_map req t)) as [|Hf].
      * rewrite fmap_cons, IH1, Ht. split; [done|]. constructor; [by rewrite Ht|done].
      * apply Is_true_false_1 in Hf. apply evaluate_infeasible in Hf. congruence.
    + destruct (decide (feasible name_map req t)) as [Hf|]; [|done].
      apply Is_true_true in Hf. by apply evaluate_feasible in Hf.
Qed.


(** What a ranked response was built from. *)
Lemma ranked_inv current rv rm rg fr n current' req best top :
  (recommend_instance current rv rm rg fr n).1 =
    Return (Ranked current' req best top) ->
  ∃ names cs,
    compatible_names (matrix_df fr) current = Return names ∧
    evaluate_all (instances_df fr) req names = Return cs ∧
    current' = current ∧
    req = {| vcpus := rv; memory_mib := rm; gpus := rg |} ∧
    head (sort_by_score cs) = Some best ∧
    top = slice_to (sort_by_score cs) n.
Proof.
  unfold recommend_instance. simpl.
  destruct (instances_df fr !! current); [|done].
  destruct (decide _); [|done].
  rewrite compatible_names_astype_str.
  destruct (compatible_names (matrix_df fr) current) as [names|]; [|done].
  simpl. destruct names as [|t names]; [done|].
  destruct (evaluate_all _ _ (t :: names)) as [cs|] eqn:Ecs; [|done].
  cbn -[sort_by_score evaluate_all]. destruct cs as [|c cs]; [done|].
  destruct (sort_by_score (c :: cs)) as [|b sorted] eqn:Es; [done|].
  intros [= <- <- <- <-]. exists (t :: names), (c :: cs).
  by rewrite Es.
Qed.

End engine.

(** ** Rows with missing fields *)

Section rows.
Context {libm : Libm}.

Lemma get_int_fill_field f g (inst : row) :
  get_int (fill_field f inst) g = get_int inst g.
Proof.
  unfold fill_field, get_int. destruct (inst !! f) eqn:E; [done|].
  destruct (decide (f = g)) as [<-|Hne].
  - by rewrite lookup_insert_eq, E.
  - by rewrite lookup_insert_ne.
Qed.

Lemma get_int_fill_missing g (inst : row) :
  get_int (fill_missing inst) g = get_int inst g.
Proof. unfold fill_missing. by rewrite !get_int_fill_field. Qed.

Lemma fill_field_non_empty f (inst : row) : inst ≠ ∅ -> fill_field f inst ≠ ∅.
Proof.
  intros H. unfold fill_field. destruct (inst !! f); [done|].
  apply insert_non_empty.
Qed.

Lemma fill_missing_non_empty (inst : row) : inst ≠ ∅ -> fill_missing inst ≠ ∅.
Proof. intros H. unfold fill_missing. by do 3 apply fill_field_non_empty. Qed.

(** [evaluate] reads a row only through its emptiness and [get_int]. *)
Lemma evaluate_ext (nm nm' : catalog) req t :
  (∀ inst, nm !! t = Some inst ->
     ∃ inst', nm' !! t = Some inst' ∧ (inst = ∅ ↔ inst' = ∅) ∧
              ∀ f, get_int inst' f = get_int inst f) ->
  (nm !! t = None -> nm' !! t = None) ->
  evaluate nm req t = evaluate nm' req t.
Proof.
  intros HS HN. unfold evaluate. destruct (nm !! t) as [inst|].
  - destruct (HS _ eq_refl) as (inst' & -> & He & Hg).
    destruct (decide (inst = ∅)), (decide (inst' = ∅)); try tauto.
    by rewrite !Hg.
  - by rewrite HN.
Qed.

Lemma evaluate_fill_missing (nm : catalog) req t inst u :
  nm !! t = Some inst -> inst ≠ ∅ ->
  evaluate nm req u = evaluate (<[t := fill_missing inst]> nm) req u.
Proof.
  intros Ht Hne. apply evaluate_ext.
  - intros inst0 Hu. destruct (decide (t = u)) as [<-|Hd].
    + rewrite lookup_insert_eq. assert (inst0 = inst) as -> by congruence.
      exists (fill_missing inst). split; [done|]. split.
      * split; [done|]. intros H. by apply fill_missing_non_empty in H.
      * intros f. apply get_int_fill_missing.
    + rewrite lookup_insert_ne by done. eauto.
  - intros Hu. rewrite lookup_insert_ne; [done|]. congruence.
Qed.

Lemma evaluate_all_ext (nm nm' : catalog) req names :
  (∀ t, evaluate nm req t = evaluate nm' req t) ->
  evaluate_all nm req names = evaluate_all nm' req names.
Proof.
  intros H. induction names as [|t names IH]; simpl; [done|].
  by rewrite H, IH.
Qed.

(** Names the catalog does not know leave no trace in the loop. *)
Lemma evaluate_all_known (nm : catalog) req names :
  evaluate_all nm req names =
  evaluate_all nm req (filter (λ t, is_Some (nm !! t)) names).
Proof.
  induction names as [|t names IH]; simpl; [done|].
  rewrite filter_cons. destruct (decide (is_Some (nm !! t))) as [|Hn].
  - simpl. rewrite IH. reflexivity.
  - unfold evaluate at 1. rewrite <- eq_None_not_Some in Hn. rewrite Hn.
    simpl. rewrite IH.
    destruct (evaluate_all nm req (filter _ names)); reflexivity.
Qed.

End rows.

(** ** Ranked responses *)

Section ranked.
Import FloatFacts FloatPow.
Context {libm : Libm}.

Lemma leb_refl (x : float) : is_nan x = false -> (x <=? x)%float = true.
Proof.
  rewrite is_nan_spec, leb_spec. unfold SFleb. intros H.
  by rewrite SFcompare_refl.
Qed.

Lemma evaluate_all_not_nan name_map req names cs :
  evaluate_all name_map req names = Return cs -> Forall not_nan cs.
Proof.
  intros [_ H]%evaluate_all_names. eapply Forall_impl; [exact H|].
  intros c (inst & _ & _ & _ & _ & _ & _ & Hd)%evaluate_Some.
  by eapply distance_not_nan.
Qed.

Lemma ranked_members cs best n c :
  head (sort_by_score cs) = Some best ->
  c ∈ best :: slice_to (sort_by_score cs) n -> c ∈ cs.
Proof.
  intros Hb Hc. rewrite <- (sort_by_score_perm cs).
  apply elem_of_cons in Hc as [->|Hc].
  - destruct (sort_by_score cs); simplify_eq/=. set_solver.
  - destruct (slice_to_prefix (sort_by_score cs) n) as [k Hk].
    rewrite Hk. set_solver.
Qed.

Lemma head_prefix {A} (l1 l2 : list A) x :
  l1 `prefix_of` l2 -> l1 ≠ [] -> head l2 = Some x -> head l1 = Some x.
Proof. intros [k ->] Hne. by destruct l1. Qed.

End ranked.

(** * The claims *)

(** C1: in a ranked response every entry of the top list, and the best
    candidate, has at least the required vCPUs, memory and GPUs; a name
    whose row misses one of the thresholds is dropped without being
    scored. *)
Theorem top_meets_thresholds {libm : Libm} current rv rm rg fr n current' req best top :
  (recommend_instance current rv rm rg fr n).1 =
    Return (Ranked current' req best top) ->
  (∀ c, c ∈ best :: top ->
     rv <= vCPUs c ∧ rm <= MemoryMiB c ∧ rg <= GPUs c) ∧
  (∀ t inst, instances_df fr !! t = Some inst ->
     get_int inst "vCPUs" < rv ∨ get_int inst "MemoryMiB" < rm ∨
       get_int inst "GPUs" < rg ->
     evaluate (instances_df fr)
       {| vcpus := rv; memory_mib := rm; gpus := rg |} t = Return None).
Proof.
  intros H.
  destruct (ranked_inv _ _ _ _ _ _ _ _ _ _ H)
    as (names & cs & Hn & Hcs & -> & -> & Hb & ->).
  split.
  - intros c Hc%(ranked_members _ _ _ _ Hb).
    apply evaluate_all_names in Hcs as [_ Hall].
    rewrite Forall_forall in Hall.
    apply Hall, evaluate_Some in Hc as (inst & _ & _ & _ & ? & ? & ? & _).
    done.
  - intros t inst Ht Hlt. apply evaluate_infeasible.
    unfold feasible. rewrite Ht. simpl.
    rewrite !andb_false_iff, !Z.leb_gt. tauto.
Qed.

Lemma top_meets_thresholds_witness :
  (recommend_instance "A" 4 8192 0 frames_A 3).1 =
    Return (Ranked "A" req_A cand_C [cand_C; cand_B]) ∧
  ((∀ c, c ∈ cand_C :: [cand_C; cand_B] ->
      4 <= vCPUs c ∧ 8192 <= MemoryMiB c ∧ 0 <= GPUs c) ∧
   (∀ t inst, instances_df frames_A !! t = Some inst ->
      get_int inst "vCPUs" < 4 ∨ get_int inst "MemoryMiB" < 8192 ∨
        get_int inst "GPUs" < 0 ->
      evaluate (instances_df frames_A) req_A t = Return None)).
Proof.
  assert ((recommend_instance "A" 4 8192 0 frames_A 3).1 =
            Return (Ranked "A" req_A cand_C [cand_C; cand_B])) as H
    by (vm_compute; reflexivity).
  split; [exact H|].
  exact (top_meets_thresholds "A" 4 8192 0 frames_A 3 "A" req_A cand_C
           [cand_C; cand_B] H).
Defined.

(** C2: in a ranked response the candidates are the feasible names in the
    order of the source's row; the top list is ascending in score;
    candidates of equal score keep that first-seen order; the best
    candidate has the least score, and it is the head of the top list
    whenever the top list is not empty. *)
Theorem top_sorted_stable {libm : Libm} current rv rm rg fr n current' req best top :
  (recommend_instance current rv rm rg fr n).1 =
    Return (Ranked current' req best top) ->
  ∃ names cs,
    compatible_names (matrix_df fr) current = Return names ∧
    evaluate_all (instances_df fr) req names = Return cs ∧
    InstanceType <$> cs = filter (λ t, feasible (instances_df fr) req t) names ∧
    StronglySorted score_le top ∧
    (∀ k, filter (same_score k) top `prefix_of` filter (same_score k) cs) ∧
    (∀ c, c ∈ cs -> score_le best c) ∧
    (top ≠ [] -> head top = Some best).
Proof.
  intros H.
  destruct (ranked_inv _ _ _ _ _ _ _ _ _ _ H)
    as (names & cs & Hn & Hcs & -> & -> & Hb & ->).
  exists names, cs. split; [done|]. split; [done|].
  pose proof (evaluate_all_not_nan _ _ _ _ Hcs) as Hnan.
  pose proof (sort_by_score_sorted cs Hnan) as Hsorted.
  pose proof (slice_to_prefix (sort_by_score cs) n) as Hpre.
  split; [by apply evaluate_all_names in Hcs as [? _]|].
  split; [by eapply StronglySorted_prefix|].
  split; [|split].
  - intros k. rewrite <- (sort_by_score_stable k cs). by apply filter_prefix.
  - intros c Hc. rewrite <- (sort_by_score_perm cs) in Hc, Hnan.
    destruct (sort_by_score cs) as [|b rest]; simplify_eq/=.
    apply StronglySorted_inv in Hsorted as [_ Hall].
    apply Forall_cons in Hnan as [Hbn _].
    apply elem_of_cons in Hc as [->|Hc].
    + by apply leb_refl.
    + rewrite Forall_forall in Hall. by apply Hall.
  - intros Hne. by eapply head_prefix.
Qed.

Lemma top_sorted_stable_witness :
  (recommend_instance "A" 4 8192 0 frames_A 3).1 =
    Return (Ranked "A" req_A cand_C [cand_C; cand_B]) ∧
  ∃ names cs,
    compatible_names (matrix_df frames_A) "A" = Return names ∧
    evaluate_all (instances_df frames_A) req_A names = Return cs ∧
    InstanceType <$> cs =
      filter (λ t, feasible (instances_df frames_A) req_A t) names ∧
    StronglySorted score_le [cand_C; cand_B] ∧
    (∀ k, filter (same_score k) [cand_C; cand_B] `prefix_of`
            filter (same_score k) cs) ∧
    (∀ c, c ∈ cs -> score_le cand_C c) ∧
    ([cand_C; cand_B] ≠ [] -> head [cand_C; cand_B] = Some cand_C).
Proof.
  assert ((recommend_instance "A" 4 8192 0 frames_A 3).1 =
            Return (Ranked "A" req_A cand_C [cand_C; cand_B])) as H
    by (vm_compute; reflexivity).
  split; [exact H|].
  exact (top_sorted_stable "A" 4 8192 0 frames_A 3 "A" req_A cand_C
           [cand_C; cand_B] H).
Defined.



(** With the limit 0 the top list is empty, and the best candidate is
    still reported. *)
Example limit_zero_empties_top :
  (recommend_instance "A" 4 8192 0 frames_A 0).1 =
    Return (Ranked "A" req_A cand_C []) ∧
  ¬ best_is_first (Ranked "A" req_A cand_C []).
Proof. split; [vm_compute; reflexivity|]. simpl. discriminate. Qed.

(** Scenario A: B is at distance sqrt(16 + 64) from the requirement, C at
    distance 0. *)
Example scenario_A_scores :
  Score cand_B = PrimFloat.sqrt 80 ∧ Score cand_C = 0%float ∧
  (Score cand_C <? Score cand_B)%float = true.
Proof. vm_compute. done. Qed.

(** C4: a source that the catalog or the index of the matrix does not have
    makes the call fail with the unknown-source error, whatever the
    requirement and the limit. *)
Theorem unknown_source_fails {libm : Libm} current rv rm rg fr n :
  instances_df fr !! current = None ∨
    current ∉ str <$> index (matrix_df fr) ->
  ∃ e, (recommend_instance current rv rm rg fr n).1 = Raise e ∧
       UnknownSource e.
Proof.
  intros H. unfold recommend_instance. simpl.
  destruct (instances_df fr !! current) as [inst|] eqn:E.
  - destruct H as [|H]; [done|].
    destruct (decide _) as [Hin|]; [|by eexists].
    change (LStr <$> (str <$> index (matrix_df fr)))
      with (index (astype_str (matrix_df fr))) in Hin.
    by rewrite index_astype_str in Hin.
  - by eexists.
Qed.

Lemma unknown_source_fails_witness :
  (instances_df frames_A !! "Z" = None ∨
     "Z" ∉ str <$> index (matrix_df frames_A)) ∧
  ∃ e, (recommend_instance "Z" 1 1 1 frames_A 3).1 = Raise e ∧
       UnknownSource e.
Proof.
  assert (instances_df frames_A !! "Z" = None ∨
            "Z" ∉ str <$> index (matrix_df frames_A)) as H
    by (left; vm_compute; reflexivity).
  split; [exact H|].
  exact (unknown_source_fails "Z" 1 1 1 frames_A 3 H).
Defined.




(** Scenarios B and C on the sample tables: a requirement beyond every
    compatible candidate, and a source with no true entry in its row. *)
Example scenario_B_no_feasible :
  (recommend_instance "A" 64 8192 0 frames_A 3).1 =
    Return (NoFeasible {| vcpus := 64; memory_mib := 8192; gpus := 0 |}).
Proof. vm_compute. reflexivity. Qed.

Example scenario_C_no_interchangeable :
  (recommend_instance "B" 4 8192 0 frames_A 3).1 =
    Return (NoInterchangeable "B").
Proof. vm_compute. reflexivity. Qed.

(** C6: the source is not among the compatible names, nor among the
    candidates, nor in the top list, nor the best candidate, also when the
    matrix marks it as its own replacement. *)
Theorem source_never_candidate {libm : Libm} current rv rm rg fr n current' req best top :
  (recommend_instance current rv rm rg fr n).1 =
    Return (Ranked current' req best top) ->
  ∃ names cs,
    compatible_names (matrix_df fr) current = Return names ∧
    evaluate_all (instances_df fr) req names = Return cs ∧
    (current ∉ names) ∧
    (∀ c, c ∈ cs -> InstanceType c ≠ current) ∧
    InstanceType best ≠ current ∧
    (∀ c, c ∈ top -> InstanceType c ≠ current).
Proof.
  intros H.
  destruct (ranked_inv _ _ _ _ _ _ _ _ _ _ H)
    as (names & cs & Hn & Hcs & -> & -> & Hb & ->).
  exists names, cs. split; [done|]. split; [done|].
  pose proof (compatible_names_not_current _ _ _ Hn) as Hnot.
  assert (∀ c, c ∈ cs -> InstanceType c ≠ current) as Hall.
  { intros c Hc Heq. apply Hnot.
    apply evaluate_all_names in Hcs as [Hnames _].
    assert (InstanceType c ∈ InstanceType <$> cs) as Hi
      by (apply list_elem_of_fmap; eauto).
    rewrite Hnames in Hi. apply list_elem_of_filter in Hi as [_ Hi].
    by rewrite <- Heq. }
  split; [done|]. split; [done|]. split.
  - apply Hall. apply (ranked_members cs best n); [done|].
    apply elem_of_cons. by left.
  - intros c Hc. apply Hall. apply (ranked_members cs best n); [done|].
    apply elem_of_cons. by right.
Qed.

Lemma source_never_candidate_witness :
  (recommend_instance "A" 4 8192 0 frames_A 3).1 =
    Return (Ranked "A" req_A cand_C [cand_C; cand_B]) ∧
  ∃ names cs,
    compatible_names (matrix_df frames_A) "A" = Return names ∧
    evaluate_all (instances_df frames_A) req_A names = Return cs ∧
    ("A" ∉ names) ∧
    (∀ c, c ∈ cs -> InstanceType c ≠ "A") ∧
    InstanceType cand_C ≠ "A" ∧
    (∀ c, c ∈ [cand_C; cand_B] -> InstanceType c ≠ "A").
Proof.
  assert ((recommend_instance "A" 4 8192 0 frames_A 3).1 =
            Return (Ranked "A" req_A cand_C [cand_C; cand_B])) as H
    by (vm_compute; reflexivity).
  split; [exact H|].
  exact (source_never_candidate "A" 4 8192 0 frames_A 3 "A" req_A cand_C
           [cand_C; cand_B] H).
Defined.

(** The sample matrix does mark A as a replacement of A. *)
Example matrix_A_self_allowed : allowed matrix_A "A" "A".
Proof. exists 0%nat, 0%nat, (LStr "A"), (LStr "A"), [true; true; true; true]. done. Qed.

(** C7, as stated, fails for a negative limit: with the limit -1 and two
    feasible candidates the top list has one entry, and min(-1, 2) is -1. *)
Lemma top_length_counterexample :
  (recommend_instance "A" 4 8192 0 frames_A (-1)).1 =
    Return (Ranked "A" req_A cand_C [cand_C]) ∧
  evaluate_all catalog_A req_A ["B"; "C"; "D"] = Return [cand_B; cand_C] ∧
  ¬ top_length_is_min (Ranked "A" req_A cand_C [cand_C]) (-1) 2.
Proof.
  split; [vm_compute; reflexivity|]. split; [vm_compute; reflexivity|].
  simpl. lia.
Qed.

(** C7 (amended): in a ranked response the number of candidates is the
    number of feasible compatible names; for a limit that is not negative
    the top list has min(limit, that number) entries, and for a negative
    limit it has that number less the size of the limit, or none. *)
Theorem top_length {libm : Libm} current rv rm rg fr n current' req best top :
  (recommend_instance current rv rm rg fr n).1 =
    Return (Ranked current' req best top) ->
  ∃ names cs,
    compatible_names (matrix_df fr) current = Return names ∧
    evaluate_all (instances_df fr) req names = Return cs ∧
    length cs =
      length (filter (λ t, feasible (instances_df fr) req t) names) ∧
    Z.of_nat (length top) =
      (if 0 <=? n then Z.min n (Z.of_nat (length cs))
       else Z.max 0 (Z.of_nat (length cs) + n)) ∧
    (0 <= n -> Z.of_nat (length top) <= n) ∧
    (length top <= length cs)%nat.
Proof.
  intros H.
  destruct (ranked_inv _ _ _ _ _ _ _ _ _ _ H)
    as (names & cs & Hn & Hcs & -> & -> & Hb & ->).
  exists names, cs. split; [done|]. split; [done|].
  pose proof (slice_to_length (sort_by_score cs) n) as Hlen.
  rewrite (Permutation_length (sort_by_score_perm cs)) in Hlen.
  split.
  - apply evaluate_all_names in Hcs as [<- _]. by rewrite length_fmap.
  - split; [done|]. destruct (0 <=? n) eqn:E.
    + apply Z.leb_le in E. lia.
    + apply Z.leb_gt in E. lia.
Qed.

Lemma top_length_witness :
  (recommend_instance "A" 4 8192 0 frames_A 1).1 =
    Return (Ranked "A" req_A cand_C [cand_C]) ∧
  ∃ names cs,
    compatible_names (matrix_df frames_A) "A" = Return names ∧
    evaluate_all (instances_df frames_A) req_A names = Return cs ∧
    length cs =
      length (filter (λ t, feasible (instances_df frames_A) req_A t) names) ∧
    Z.of_nat (length [cand_C]) =
      (if 0 <=? 1 then Z.min 1 (Z.of_nat (length cs))
       else Z.max 0 (Z.of_nat (length cs) + 1)) ∧
    (0 <= 1 -> Z.of_nat (length [cand_C]) <= 1) ∧
    (length [cand_C] <= length cs)%nat.
Proof.
  assert ((recommend_instance "A" 4 8192 0 frames_A 1).1 =
            Return (Ranked "A" req_A cand_C [cand_C])) as H
    by (vm_compute; reflexivity).
  split; [exact H|].
  exact (top_length "A" 4 8192 0 frames_A 1 "A" req_A cand_C [cand_C] H).
Defined.

(** C8, as stated, fails on a matrix with integer labels: the call succeeds
    and leaves the labels of the caller's matrix replaced by strings. *)
Lemma frames_unchanged_counterexample :
  (recommend_instance "1" 4 8192 0 frames_N 3).1 =
    Return (Ranked "1" req_A
              (cand "2" 8 16384 0 (euclidean 8 16384 0 4 8192 0))
              [cand "2" 8 16384 0 (euclidean 8 16384 0 4 8192 0)]) ∧
  index (matrix_df (recommend_instance "1" 4 8192 0 frames_N 3).2) =
    [LStr "1"; LStr "2"] ∧
  index (matrix_df frames_N) = [LInt 1; LInt 2] ∧
  (recommend_instance "1" 4 8192 0 frames_N 3).2 ≠ frames_N.
Proof.
  split; [vm_compute; reflexivity|]. split; [vm_compute; reflexivity|].
  split; [reflexivity|].
  intros H. apply (f_equal (λ fr, index (matrix_df fr))) in H.
  vm_compute in H. discriminate.
Qed.

(** C8 (amended): the call leaves the catalog and the cells of the matrix
    as they were and replaces the row and column labels of the matrix by
    their string forms, so that a matrix whose labels are all strings is
    unchanged; a second call on the frames the first one left gives the
    same response and leaves them as they are. *)
Theorem frames_after_call {libm : Libm} current rv rm rg fr n :
  let out := recommend_instance current rv rm rg fr n in
  instances_df out.2 = instances_df fr ∧
  cells (matrix_df out.2) = cells (matrix_df fr) ∧
  index (matrix_df out.2) = LStr <$> (str <$> index (matrix_df fr)) ∧
  columns (matrix_df out.2) = LStr <$> (str <$> columns (matrix_df fr)) ∧
  (all_strings (index (matrix_df fr)) ->
   all_strings (columns (matrix_df fr)) -> out.2 = fr) ∧
  recommend_instance current rv rm rg out.2 n = out.
Proof.
  simpl. repeat split.
  - intros Hi Hc. destruct fr as [nm df]. simpl.
    by rewrite astype_str_id.
  - unfold recommend_instance. cbn [instances_df matrix_df].
    by rewrite astype_str_idemp.
Qed.

(** C9: a compatible name that the catalog does not have is skipped by the
    loop, which goes on as if the name were not there; the entries of a
    ranked response all have a catalog row. *)
Theorem unknown_names_skipped {libm : Libm} current rv rm rg fr n current' req best top :
  (recommend_instance current rv rm rg fr n).1 =
    Return (Ranked current' req best top) ->
  (∀ c, c ∈ best :: top -> is_Some (instances_df fr !! InstanceType c)) ∧
  (∀ t, instances_df fr !! t = None ->
     evaluate (instances_df fr) req t = Return None) ∧
  (∀ names,
     evaluate_all (instances_df fr) req names =
     evaluate_all (instances_df fr) req
       (filter (λ t, is_Some (instances_df fr !! t)) names)).
Proof.
  intros H. split; [|split].
  - destruct (ranked_inv _ _ _ _ _ _ _ _ _ _ H)
      as (names & cs & Hn & Hcs & -> & -> & Hb & ->).
    intros c Hc%(ranked_members _ _ _ _ Hb).
    apply evaluate_all_names in Hcs as [_ Hall].
    rewrite Forall_forall in Hall.
    apply Hall, evaluate_Some in Hc as (inst & Hi & _). by eexists.
  - intros t Ht. unfold evaluate. by rewrite Ht.
  - intros names. apply evaluate_all_known.
Qed.

Lemma unknown_names_skipped_witness :
  (recommend_instance "A" 4 8192 0 frames_A 3).1 =
    Return (Ranked "A" req_A cand_C [cand_C; cand_B]) ∧
  ((∀ c, c ∈ cand_C :: [cand_C; cand_B] ->
      is_Some (instances_df frames_A !! InstanceType c)) ∧
   (∀ t, instances_df frames_A !! t = None ->
      evaluate (instances_df frames_A) req_A t = Return None) ∧
   (∀ names,
      evaluate_all (instances_df frames_A) req_A names =
      evaluate_all (instances_df frames_A) req_A
        (filter (λ t, is_Some (instances_df frames_A !! t)) names))).
Proof.
  assert ((recommend_instance "A" 4 8192 0 frames_A 3).1 =
            Return (Ranked "A" req_A cand_C [cand_C; cand_B])) as H
    by (vm_compute; reflexivity).
  split; [exact H|].
  exact (unknown_names_skipped "A" 4 8192 0 frames_A 3 "A" req_A cand_C
           [cand_C; cand_B] H).
Defined.

(** Scenario E: with the limit 1 the top list is the best candidate
    alone. *)
Example scenario_E_limit_one :
  (recommend_instance "A" 4 8192 0 frames_A 1).1 =
    Return (Ranked "A" req_A cand_C [cand_C]).
Proof. vm_compute. reflexivity. Qed.

(** In the sample tables D is compatible with A and has no catalog row. *)
Example matrix_A_unknown_name :
  compatible_names matrix_A "A" = Return ["B"; "C"; "D"] ∧
  catalog_A !! "D" = None.
Proof. vm_compute. done. Qed.

(** C10, as stated, fails on a row with no field at all: the candidate is
    skipped, where the same row with zeros written in is feasible for the
    requirement (0, 0, 0) and is ranked. *)
Lemma missing_as_zero_counterexample :
  catalog_E !! "B" = Some ∅ ∧
  evaluate catalog_E req_0 "B" = Return None ∧
  evaluate (<["B" := fill_missing ∅]> catalog_E) req_0 "B" =
    Return (Some (cand "B" 0 0 0 0)) ∧
  ¬ missing_as_zero catalog_E req_0 "B" ∧
  (recommend_instance "A" 0 0 0 frames_E 3).1 = Return (NoFeasible req_0) ∧
  (recommend_instance "A" 0 0 0 frames_E0 3).1 =
    Return (Ranked "A" req_0 (cand "B" 0 0 0 0) [cand "B" 0 0 0 0]).
Proof.
  assert (catalog_E !! "B" = Some ∅) as H1 by (vm_compute; reflexivity).
  assert (evaluate catalog_E req_0 "B" = Return None) as H2
    by (vm_compute; reflexivity).
  assert (evaluate (<["B" := fill_missing ∅]> catalog_E) req_0 "B" =
            Return (Some (cand "B" 0 0 0 0))) as H3
    by (vm_compute; reflexivity).
  split; [exact H1|]. split; [exact H2|]. split; [exact H3|]. split.
  - intros H. specialize (H _ H1). rewrite H2, H3 in H. discriminate H.
  - split; vm_compute; reflexivity.
Qed.

(** C10 (amended): for a row that is not empty, a missing resource field
    counts as 0 in the comparison with the requirement and in the score,
    so the call answers as it does on the row with the zeros written in; a
    candidate made from such a row has 0 in that field, and the requirement
    for it is at most 0. *)
Theorem missing_fields_are_zero {libm : Libm} current rv rm rg nm df n t inst :
  nm !! t = Some inst -> inst ≠ ∅ ->
  let req := {| vcpus := rv; memory_mib := rm; gpus := rg |} in
  let nm' := <[t := fill_missing inst]> nm in
  (∀ u, evaluate nm req u = evaluate nm' req u) ∧
  (recommend_instance current rv rm rg
     {| instances_df := nm; matrix_df := df |} n).1 =
  (recommend_instance current rv rm rg
     {| instances_df := nm'; matrix_df := df |} n).1 ∧
  (∀ c, evaluate nm req t = Return (Some c) ->
     (inst !! "vCPUs" = None -> vCPUs c = 0 ∧ rv <= 0) ∧
     (inst !! "MemoryMiB" = None -> MemoryMiB c = 0 ∧ rm <= 0) ∧
     (inst !! "GPUs" = None -> GPUs c = 0 ∧ rg <= 0)).
Proof.
  intros Ht Hne req nm'.
  assert (∀ u, evaluate nm req u = evaluate nm' req u) as Hev
    by (intros u; by apply evaluate_fill_missing).
  split; [done|]. split.
  - unfold recommend_instance. cbn -[sort_by_score evaluate_all astype_str].
    fold req. fold nm'.
    assert (nm' !! current = None ↔ nm !! current = None) as Hsrc.
    { subst nm'. destruct (decide (t = current)) as [<-|Hd].
      - rewrite lookup_insert_eq, Ht. done.
      - by rewrite lookup_insert_ne. }
    destruct (nm !! current) as [i0|], (nm' !! current) as [i1|];
      [|by destruct Hsrc as [Hs _]; specialize (Hs eq_refl)
       |by destruct Hsrc as [_ Hs]; specialize (Hs eq_refl)|done].
    destruct (decide _); [|done].
    destruct (compatible_names _ _) as [names|]; [|done]. simpl.
    destruct names as [|u names]; [done|].
    by rewrite (evaluate_all_ext nm nm' req (u :: names) Hev).
  - intros c (inst' & Hi & _ & Hc & Hv & Hm & Hg & _)%evaluate_Some.
    assert (inst' = inst) as -> by congruence.
    rewrite Hc in Hv, Hm, Hg. rewrite Hc. simpl in *.
    unfold get_int in *.
    split; [|split]; intros E; rewrite E in *; simpl in *; done.
Qed.

Lemma missing_fields_are_zero_witness :
  ({[ "B" := {[ "vCPUs" := 2 ]} ]} : catalog) !! "B" = Some {[ "vCPUs" := 2 ]} ∧
  ({[ "vCPUs" := 2 ]} : row) ≠ ∅ ∧
  let nm : catalog := {[ "B" := {[ "vCPUs" := 2 ]} ]} in
  let req := {| vcpus := 1; memory_mib := 0; gpus := 0 |} in
  let nm' := <["B" := fill_missing {[ "vCPUs" := 2 ]}]> nm in
  (∀ u, evaluate nm req u = evaluate nm' req u) ∧
  (recommend_instance "A" 1 0 0
     {| instances_df := nm; matrix_df := matrix_A |} 3).1 =
  (recommend_instance "A" 1 0 0
     {| instances_df := nm'; matrix_df := matrix_A |} 3).1 ∧
  (∀ c, evaluate nm req "B" = Return (Some c) ->
     (({[ "vCPUs" := 2 ]} : row) !! "vCPUs" = None -> vCPUs c = 0 ∧ 1 <= 0) ∧
     (({[ "vCPUs" := 2 ]} : row) !! "MemoryMiB" = None ->
        MemoryMiB c = 0 ∧ 0 <= 0) ∧
     (({[ "vCPUs" := 2 ]} : row) !! "GPUs" = None -> GPUs c = 0 ∧ 0 <= 0)).
Proof.
  assert (({[ "B" := {[ "vCPUs" := 2 ]} ]} : catalog) !! "B"
            = Some {[ "vCPUs" := 2 ]}) as H1 by (vm_compute; reflexivity).
  assert (({[ "vCPUs" := 2 ]} : row) ≠ ∅) as H2
    by (intros H; apply (f_equal (λ m : row, m !! "vCPUs")) in H;
        vm_compute in H; discriminate).
  split; [exact H1|]. split; [exact H2|].
  exact (missing_fields_are_zero "A" 1 0 0 _ matrix_A 3 "B" _ H1 H2).
Defined.

(** A row that only lacks memory and GPUs is ranked when those two
    requirements are 0, with 0 in the two fields. *)
Example partial_row_ranked :
  evaluate {[ "B" := {[ "vCPUs" := 2 ]} ]}
    {| vcpus := 1; memory_mib := 0; gpus := 0 |} "B" =
    Return (Some (cand "B" 2 0 0 1)).
Proof. vm_compute. reflexivity. Qed.

(** * Further facts *)


(** ** What the engine can raise, and the sign of the scores *)

Section engine_more.
Import Float FloatFacts FloatSigns FloatPow.
Context {libm : Libm}.

Lemma of_int_raise z e : of_int z = Raise e -> e = OverflowError.
Proof. unfold of_int. destruct (is_infinity _); [|done]. by intros [= <-]. Qed.

Lemma square_nonneg z : 0 <= z ^ 2.
Proof. rewrite Z.pow_2_r. nia. Qed.

(** The argument of the square root is a sum of three terms that are not
    negative, so the root exists and is not negative. *)
Lemma distance_cases v m g req :
  distance v m g req = Raise OverflowError ∨
  ∃ d, distance v m g req = Return d ∧ sf_nonneg (Prim2SF d) = true.
Proof.
  unfold distance.
  destruct (int_div m 1024) as [ms|e] eqn:Em; simpl.
  2:{ left. unfold int_div in Em. destruct (of_int m) eqn:E; [done|].
      simpl in Em. injection Em as <-. by rewrite (of_int_raise _ _ E). }
  destruct (int_div (memory_mib req) 1024) as [rs|e] eqn:Er; simpl.
  2:{ left. unfold int_div in Er. destruct (of_int _) eqn:E; [done|].
      simpl in Er. injection Er as <-. by rewrite (of_int_raise _ _ E). }
  destruct (pow2 _) as [m2|e] eqn:Ep; simpl;
    [|left; by rewrite (pow2_raise _ _ Ep)].
  unfold int_add, add_int.
  destruct (of_int ((v - _) ^ 2)) as [fv|e] eqn:Ev; simpl;
    [|left; by rewrite (of_int_raise _ _ Ev)].
  destruct (of_int ((g - _) ^ 2)) as [fg|e] eqn:Eg; simpl;
    [|left; by rewrite (of_int_raise _ _ Eg)].
  right.
  apply int_div_1024_finite in Em, Er.
  apply of_int_nonneg in Ev, Eg; [|apply square_nonneg..].
  assert (is_nan (ms - rs) = false) as Hsub
    by (rewrite is_nan_spec, sub_spec; by apply SFsub_not_nan).
  apply (pow2_nonneg _ _ Hsub) in Ep.
  assert (sf_nonneg (Prim2SF (fv + m2 + fg)) = true) as Hs.
  { rewrite !add_spec. by repeat apply SFadd_nonneg. }
  assert (sf_nonneg (Prim2SF (PrimFloat.sqrt (fv + m2 + fg))) = true) as Hr.
  { rewrite sqrt_spec. by apply SFsqrt_nonneg. }
  exists (PrimFloat.sqrt (fv + m2 + fg)). split; [|done].
  unfold math_sqrt. rewrite (is_nan_spec (PrimFloat.sqrt _)).
  by rewrite (sf_nonneg_not_nan _ Hr).
Qed.

Lemma evaluate_raise name_map req t e :
  evaluate name_map req t = Raise e -> e = OverflowError.
Proof.
  unfold evaluate. destruct (name_map !! t) as [inst|]; [|done].
  destruct (decide _); [done|]. destruct (_ || _); [done|].
  destruct (distance_cases (get_int inst "vCPUs") (get_int inst "MemoryMiB")
              (get_int inst "GPUs") req) as [->|(d & -> & _)]; simpl.
  - by intros [= <-].
  - done.
Qed.

Lemma evaluate_all_raise name_map req names e :
  evaluate_all name_map req names = Raise e -> e = OverflowError.
Proof.
  induction names as [|t names IH]; simpl; [done|].
  destruct (evaluate name_map req t) as [c|e'] eqn:Et; simpl.
  - destruct (evaluate_all name_map req names) as [cs|e'']; simpl; [done|].
    intros [= <-]. by apply IH.
  - intros [= <-]. by eapply evaluate_raise.
Qed.

Lemma evaluate_nonneg name_map req t c :
  evaluate name_map req t = Return (Some c) ->
  sf_nonneg (Prim2SF (Score c)) = true.
Proof.
  intros (inst & _ & _ & _ & _ & _ & _ & Hd)%evaluate_Some.
  destruct (distance_cases (vCPUs c) (MemoryMiB c) (GPUs c) req)
    as [H|(d & H & Hn)]; rewrite H in Hd; [done|]. by injection Hd as <-.
Qed.

Lemma compatible_names_raise df current e :
  compatible_names df current = Raise e ->
  e = AmbiguousTruthValue ∧ length (loc df current) ≠ 1%nat ∧ columns df ≠ [].
Proof.
  unfold compatible_names.
  destruct (loc df current) as [|r [|r' rs]]; [|done|];
    (destruct (columns df); [done|]; by intros [= <-]).
Qed.

Lemma take_prefix {A} (l : list A) (i j : nat) :
  (i <= j)%nat -> take i l `prefix_of` take j l.
Proof.
  intros Hij. exists (drop i (take j l)).
  rewrite <- (take_drop i (take j l)) at 1.
  by rewrite take_take, Nat.min_l.
Qed.

Lemma slice_to_mono {A} (l : list A) n m :
  0 <= n <= m ∨ n <= m < 0 -> slice_to l n `prefix_of` slice_to l m.
Proof.
  intros H. unfold slice_to.
  destruct (0 <=? n) eqn:En, (0 <=? m) eqn:Em;
    rewrite ?Z.leb_le, ?Z.leb_gt in En, Em; try lia;
    apply take_prefix; lia.
Qed.

(** The sorted candidates behind a ranked response. *)
Lemma ranked_sorted current rv rm rg fr n current' req best top :
  (recommend_instance current rv rm rg fr n).1 =
    Return (Ranked current' req best top) ->
  ∃ names cs rest,
    compatible_names (matrix_df fr) current = Return names ∧
    evaluate_all (instances_df fr) req names = Return cs ∧
    req = {| vcpus := rv; memory_mib := rm; gpus := rg |} ∧
    sort_by_score cs = top ++ rest ∧
    top = slice_to (sort_by_score cs) n ∧
    StronglySorted score_le (sort_by_score cs) ∧
    head (sort_by_score cs) = Some best.
Proof.
  intros H.
  destruct (ranked_inv _ _ _ _ _ _ _ _ _ _ H)
    as (names & cs & Hn & Hcs & -> & -> & Hb & ->).
  destruct (slice_to_prefix (sort_by_score cs) n) as [rest Hrest].
  exists names, cs, rest. repeat split; try done.
  apply sort_by_score_sorted. by eapply evaluate_all_not_nan.
Qed.

End engine_more.

(** * Further properties of the engine *)

Section engine_extras_lemmas.
Import Float FloatFacts FloatSigns FloatPow.
Context {libm : Libm}.

Lemma SFsub_diag x :
  sf_finite x = true -> SF64sub x x = S754_zero false.
Proof.
  destruct x as [[]|[]| |s m e]; try done. intros _.
  unfold SF64sub, SFsub. by rewrite Z.sub_diag.
Qed.

Lemma distance_exact v m g d :
  distance v m g {| vcpus := v; memory_mib := m; gpus := g |} = Return d ->
  d = 0%float.
Proof.
  intros Hd. pose proof (distance_euclidean _ _ _ _ _ Hd) as ->.
  unfold distance in Hd. simpl in Hd.
  destruct (int_div m 1024) as [ms|] eqn:Em; [|done].
  pose proof (int_div_1024_finite _ _ Em) as Hfin.
  unfold int_div in Em. destruct (of_int m) as [fm|] eqn:Eo; [|done].
  simpl in Em. injection Em as <-. apply of_int_to_float in Eo as ->.
  unfold euclidean. simpl. rewrite !Z.sub_diag.
  assert ((to_float m / 1024 - to_float m / 1024)%float = 0%float) as ->.
  { apply Prim2SF_inj. rewrite sub_spec. by rewrite SFsub_diag. }
  reflexivity.
Qed.

Lemma nonneg_leb_zero (x : float) :
  sf_nonneg (Prim2SF x) = true -> (0 <=? x)%float = true.
Proof. rewrite leb_spec. apply SFleb_zero_nonneg. Qed.

Lemma leb_antisym (x y : float) :
  (x <=? y)%float = true -> (y <=? x)%float = true -> (x =? y)%float = true.
Proof. rewrite !leb_spec, FloatAxioms.eqb_spec. apply SFleb_antisym. Qed.

Lemma sorted_head_least cs best c :
  StronglySorted score_le (sort_by_score cs) ->
  Forall not_nan cs ->
  head (sort_by_score cs) = Some best -> c ∈ cs -> score_le best c.
Proof.
  intros Hs Hnan Hb Hc. rewrite <- (sort_by_score_perm cs) in Hc, Hnan.
  destruct (sort_by_score cs) as [|b rest]; simplify_eq/=.
  apply StronglySorted_inv in Hs as [_ Hall].
  apply Forall_cons in Hnan as [Hbn _].
  apply elem_of_cons in Hc as [->|Hc].
  - by apply leb_refl.
  - rewrite Forall_forall in Hall. by apply Hall.
Qed.

Lemma compatible_names_sublist df current names :
  compatible_names df current = Return names ->
  names `sublist_of` str <$> columns df.
Proof.
  unfold compatible_names.
  destruct (loc df current) as [|r [|r' rs]].
  - destruct (columns df); [|done]. intros [= <-]. constructor.
  - intros [= <-]. unfold items. generalize r.
    induction (columns df) as [|l ls IH]; intros [|b bs]; simpl;
      try apply sublist_nil_l.
    rewrite filter_cons. destruct (decide _); simpl.
    + apply sublist_skip. by apply IH.
    + apply sublist_cons. by apply IH.
  - destruct (columns df); [|done]. intros [= <-]. constructor.
Qed.

End engine_extras_lemmas.

(** X1: the engine never raises a math-domain error and never an index
    error: the argument of the square root is a sum of three terms that
    are not negative, and the first candidate is taken from a list that
    is not empty.  The scoring expression itself, on any integers, either
    raises an overflow error or returns a number that is not negative. *)
Theorem no_domain_or_index_error {libm : Libm} current rv rm rg fr n :
  (recommend_instance current rv rm rg fr n).1 ≠ Raise MathDomainError ∧
  (recommend_instance current rv rm rg fr n).1 ≠ Raise IndexError ∧
  ∀ vcpu mem gpu req,
    distance vcpu mem gpu req = Raise OverflowError ∨
    ∃ d, distance vcpu mem gpu req = Return d ∧
         is_nan d = false ∧ (0 <=? d)%float = true.
Proof.
  assert (∀ e, (recommend_instance current rv rm rg fr n).1 = Raise e ->
            e ≠ MathDomainError ∧ e ≠ IndexError) as Hraise.
  { intros e. unfold recommend_instance.
    cbn -[sort_by_score evaluate_all astype_str].
    destruct (instances_df fr !! current) as [inst|]; [|by intros [= <-]].
    destruct (decide _); [|by intros [= <-]].
    destruct (compatible_names _ current) as [names|e'] eqn:En.
    - simpl. destruct names as [|t names]; [done|].
      destruct (evaluate_all _ _ (t :: names)) as [cs|e''] eqn:Ecs.
      + cbn -[sort_by_score evaluate_all]. destruct cs as [|c cs]; [done|].
        destruct (sort_by_score (c :: cs)) eqn:Es; [|done].
        by apply sort_by_score_nil in Es.
      + cbn -[sort_by_score evaluate_all]. intros [= <-].
        by apply evaluate_all_raise in Ecs as ->.
    - simpl. intros [= <-].
      by apply compatible_names_raise in En as (-> & _ & _). }
  split; [|split].
  - intros H. by destruct (Hraise _ H).
  - intros H. by destruct (Hraise _ H).
  - intros vcpu mem gpu req.
    destruct (distance_cases vcpu mem gpu req) as [H|(d & H & Hd)];
      [by left|right].
    exists d. split; [done|]. split.
    + rewrite FloatFacts.is_nan_spec. by apply FloatSigns.sf_nonneg_not_nan.
    + by apply nonneg_leb_zero.
Qed.

(** X2: the score of every candidate of a ranked response is a number that
    is not negative: never NaN, never below zero. *)
Theorem scores_not_negative {libm : Libm} current rv rm rg fr n current' req best top :
  (recommend_instance current rv rm rg fr n).1 =
    Return (Ranked current' req best top) ->
  ∀ c, c ∈ best :: top ->
    is_nan (Score c) = false ∧ (0 <=? Score c)%float = true.
Proof.
  intros H.
  destruct (ranked_inv _ _ _ _ _ _ _ _ _ _ H)
    as (names & cs & Hn & Hcs & -> & -> & Hb & ->).
  intros c Hc%(ranked_members _ _ _ _ Hb).
  apply evaluate_all_names in Hcs as [_ Hall].
  rewrite Forall_forall in Hall. apply Hall, evaluate_nonneg in Hc.
  split; [|by apply nonneg_leb_zero].
  rewrite FloatFacts.is_nan_spec. by apply FloatSigns.sf_nonneg_not_nan.
Qed.

Lemma scores_not_negative_witness :
  (recommend_instance "A" 4 8192 0 frames_A 3).1 =
    Return (Ranked "A" req_A cand_C [cand_C; cand_B]) ∧
  ∀ c, c ∈ cand_C :: [cand_C; cand_B] ->
    is_nan (Score c) = false ∧ (0 <=? Score c)%float = true.
Proof.
  assert ((recommend_instance "A" 4 8192 0 frames_A 3).1 =
            Return (Ranked "A" req_A cand_C [cand_C; cand_B])) as H
    by (vm_compute; reflexivity).
  split; [exact H|].
  exact (scores_not_negative "A" 4 8192 0 frames_A 3 "A" req_A cand_C
           [cand_C; cand_B] H).
Defined.

(** X3: a candidate whose three resources equal the requirement has the
    score 0, and when a compatible name has such a row the best candidate
    of the ranked response has a score equal to 0. *)
Theorem exact_match_scores_zero {libm : Libm} current rv rm rg fr n current' req best top :
  (recommend_instance current rv rm rg fr n).1 =
    Return (Ranked current' req best top) ->
  (∀ c, c ∈ best :: top ->
     vCPUs c = rv -> MemoryMiB c = rm -> GPUs c = rg -> Score c = 0%float) ∧
  ∃ names,
    compatible_names (matrix_df fr) current = Return names ∧
    ∀ t inst, t ∈ names -> instances_df fr !! t = Some inst -> inst ≠ ∅ ->
      get_int inst "vCPUs" = rv -> get_int inst "MemoryMiB" = rm ->
      get_int inst "GPUs" = rg ->
      (Score best =? 0)%float = true.
Proof.
  intros H.
  destruct (ranked_inv _ _ _ _ _ _ _ _ _ _ H)
    as (names & cs & Hn & Hcs & -> & -> & Hb & ->).
  pose proof (evaluate_all_names _ _ _ _ Hcs) as [Hnames Hall].
  rewrite Forall_forall in Hall.
  assert (∀ c, c ∈ cs -> vCPUs c = rv -> MemoryMiB c = rm -> GPUs c = rg ->
            Score c = 0%float) as Hzero.
  { intros c Hc Hv Hm Hg.
    apply Hall, evaluate_Some in Hc as (_ & _ & _ & _ & _ & _ & _ & Hd).
    rewrite Hv, Hm, Hg in Hd. by apply distance_exact in Hd. }
  split.
  - intros c Hc%(ranked_members _ _ _ _ Hb). by apply Hzero.
  - exists names. split; [done|]. intros t inst Ht Hi Hne Hv Hm Hg.
    assert (feasible (instances_df fr)
              {| vcpus := rv; memory_mib := rm; gpus := rg |} t) as Hf.
    { unfold feasible. rewrite Hi, Hv, Hm, Hg. simpl.
      rewrite bool_decide_true by done. rewrite !Z.leb_refl. done. }
    assert (t ∈ InstanceType <$> cs) as (c & -> & Hc)%list_elem_of_fmap
      by (rewrite Hnames; by apply list_elem_of_filter).
    pose proof (Hall _ Hc) as (inst' & Hi' & _ & Hceq & _)%evaluate_Some.
    assert (inst' = inst) as -> by congruence.
    assert (Score c = 0%float) as Hc0.
    { apply Hzero; [done|..]; by rewrite Hceq. }
    pose proof (evaluate_all_not_nan _ _ _ _ Hcs) as Hnan.
    assert (score_le best c) as Hle.
    { eapply sorted_head_least; [|done..]. by apply sort_by_score_sorted. }
    unfold score_le in Hle. rewrite Hc0 in Hle.
    apply leb_antisym; [done|]. apply nonneg_leb_zero.
    eapply evaluate_nonneg, Hall. apply (ranked_members cs best n); [done|].
    apply elem_of_cons. by left.
Qed.

Lemma exact_match_scores_zero_witness :
  (recommend_instance "A" 4 8192 0 frames_A 3).1 =
    Return (Ranked "A" req_A cand_C [cand_C; cand_B]) ∧
  ((∀ c, c ∈ cand_C :: [cand_C; cand_B] ->
      vCPUs c = 4 -> MemoryMiB c = 8192 -> GPUs c = 0 -> Score c = 0%float) ∧
   ∃ names,
     compatible_names (matrix_df frames_A) "A" = Return names ∧
     ∀ t inst, t ∈ names -> instances_df frames_A !! t = Some inst ->
       inst ≠ ∅ ->
       get_int inst "vCPUs" = 4 -> get_int inst "MemoryMiB" = 8192 ->
       get_int inst "GPUs" = 0 ->
       (Score cand_C =? 0)%float = true).
Proof.
  assert ((recommend_instance "A" 4 8192 0 frames_A 3).1 =
            Return (Ranked "A" req_A cand_C [cand_C; cand_B])) as H
    by (vm_compute; reflexivity).
  split; [exact H|].
  exact (exact_match_scores_zero "A" 4 8192 0 frames_A 3 "A" req_A cand_C
           [cand_C; cand_B] H).
Defined.

(** X4: the top list holds the closest candidates: the candidates left out
    of it all score at least as much as each of its entries, and when the
    limit is at least the number of candidates nothing is left out. *)
Theorem top_holds_the_closest {libm : Libm} current rv rm rg fr n current' req best top :
  (recommend_instance current rv rm rg fr n).1 =
    Return (Ranked current' req best top) ->
  ∃ names cs rest,
    compatible_names (matrix_df fr) current = Return names ∧
    evaluate_all (instances_df fr) req names = Return cs ∧
    top ++ rest ≡ₚ cs ∧
    (∀ c d, c ∈ top -> d ∈ rest -> score_le c d) ∧
    (Z.of_nat (length cs) <= n -> rest = [] ∧ top ≡ₚ cs).
Proof.
  intros H.
  destruct (ranked_sorted _ _ _ _ _ _ _ _ _ _ H)
    as (names & cs & rest & Hn & Hcs & -> & Hsplit & Htop & Hs & Hb).
  exists names, cs, rest. split; [done|]. split; [done|].
  assert (top ++ rest ≡ₚ cs) as Hp
    by (rewrite <- Hsplit; apply sort_by_score_perm).
  split; [done|]. split.
  - intros c d Hc Hd. rewrite Hsplit in Hs.
    by eapply StronglySorted_app_1_elem_of.
  - intros Hlen.
    assert (rest = []) as ->; [|by rewrite app_nil_r in Hp].
    apply (f_equal length) in Hsplit. rewrite length_app in Hsplit.
    pose proof (slice_to_length (sort_by_score cs) n) as Hl.
    rewrite <- Htop in Hl.
    rewrite (Permutation_length (sort_by_score_perm cs)) in Hsplit, Hl.
    destruct (0 <=? n) eqn:E; [|apply Z.leb_gt in E; lia].
    apply length_zero_iff_nil. lia.
Qed.

Lemma top_holds_the_closest_witness :
  (recommend_instance "A" 4 8192 0 frames_A 1).1 =
    Return (Ranked "A" req_A cand_C [cand_C]) ∧
  ∃ names cs rest,
    compatible_names (matrix_df frames_A) "A" = Return names ∧
    evaluate_all (instances_df frames_A) req_A names = Return cs ∧
    [cand_C] ++ rest ≡ₚ cs ∧
    (∀ c d, c ∈ [cand_C] -> d ∈ rest -> score_le c d) ∧
    (Z.of_nat (length cs) <= 1 -> rest = [] ∧ [cand_C] ≡ₚ cs).
Proof.
  assert ((recommend_instance "A" 4 8192 0 frames_A 1).1 =
            Return (Ranked "A" req_A cand_C [cand_C])) as H
    by (vm_compute; reflexivity).
  split; [exact H|].
  exact (top_holds_the_closest "A" 4 8192 0 frames_A 1 "A" req_A cand_C
           [cand_C] H).
Defined.

(** X5: when the column labels of the matrix are distinct as strings, no
    instance type appears twice among the candidates or in the top list. *)
Theorem top_has_no_duplicates {libm : Libm} current rv rm rg fr n current' req best top :
  NoDup (str <$> columns (matrix_df fr)) ->
  (recommend_instance current rv rm rg fr n).1 =
    Return (Ranked current' req best top) ->
  NoDup (InstanceType <$> top) ∧
  ∃ names cs,
    compatible_names (matrix_df fr) current = Return names ∧
    evaluate_all (instances_df fr) req names = Return cs ∧
    NoDup names ∧ NoDup (InstanceType <$> cs).
Proof.
  intros Hnd H.
  destruct (ranked_inv _ _ _ _ _ _ _ _ _ _ H)
    as (names & cs & Hn & Hcs & -> & -> & Hb & ->).
  pose proof (compatible_names_sublist _ _ _ Hn) as Hsub.
  pose proof (sublist_NoDup _ _ Hnd Hsub) as Hnames.
  pose proof (evaluate_all_names _ _ _ _ Hcs) as [Heq _].
  assert (NoDup (InstanceType <$> cs)) as Hcsd
    by (rewrite Heq; by apply NoDup_filter).
  split; [|by exists names, cs].
  destruct (slice_to_prefix (sort_by_score cs) n) as [rest Hrest].
  assert (NoDup (InstanceType <$> sort_by_score cs)) as Hsd
    by (by rewrite (sort_by_score_perm cs)).
  rewrite Hrest, fmap_app in Hsd. by apply NoDup_app in Hsd as [? _].
Qed.

Lemma top_has_no_duplicates_witness :
  NoDup (str <$> columns (matrix_df frames_A)) ∧
  (recommend_instance "A" 4 8192 0 frames_A 3).1 =
    Return (Ranked "A" req_A cand_C [cand_C; cand_B]) ∧
  (NoDup (InstanceType <$> [cand_C; cand_B]) ∧
   ∃ names cs,
     compatible_names (matrix_df frames_A) "A" = Return names ∧
     evaluate_all (instances_df frames_A) req_A names = Return cs ∧
     NoDup names ∧ NoDup (InstanceType <$> cs)).
Proof.
  assert (NoDup (str <$> columns (matrix_df frames_A))) as H1
    by (apply (bool_decide_unpack _); vm_compute; exact I).
  assert ((recommend_instance "A" 4 8192 0 frames_A 3).1 =
            Return (Ranked "A" req_A cand_C [cand_C; cand_B])) as H
    by (vm_compute; reflexivity).
  split; [exact H1|]. split; [exact H|].
  exact (top_has_no_duplicates "A" 4 8192 0 frames_A 3 "A" req_A cand_C
           [cand_C; cand_B] H1 H).
Defined.

(** X6: the limit decides nothing but the top list: two calls that differ
    in the limit alone fail alike, or give the same empty outcome, or give
    ranked responses with the same best candidate; the top list of the
    smaller limit is a prefix of the top list of the larger when both
    limits are on the same side of zero; and the frames are left alike. *)
Theorem limit_only_cuts_the_top {libm : Libm} current rv rm rg fr n m :
  let out_n := recommend_instance current rv rm rg fr n in
  let out_m := recommend_instance current rv rm rg fr m in
  without_top out_n.1 = without_top out_m.1 ∧
  (0 <= n <= m ∨ n <= m < 0 -> top_of out_n.1 `prefix_of` top_of out_m.1) ∧
  out_n.2 = out_m.2.
Proof.
  unfold recommend_instance. cbn -[sort_by_score evaluate_all astype_str].
  split; [|split]; [| |done].
  - destruct (instances_df fr !! current); [|done].
    destruct (decide _); [|done].
    destruct (compatible_names _ _) as [names|]; [|done]. simpl.
    destruct names as [|t names]; [done|].
    destruct (evaluate_all _ _ (t :: names)) as [cs|]; [|done].
    cbn -[sort_by_score evaluate_all]. destruct cs as [|c cs]; [done|].
    by destruct (sort_by_score (c :: cs)).
  - intros Hnm.
    destruct (instances_df fr !! current); [|done].
    destruct (decide _); [|done].
    destruct (compatible_names _ _) as [names|]; [|done]. simpl.
    destruct names as [|t names]; [done|].
    destruct (evaluate_all _ _ (t :: names)) as [cs|]; [|done].
    cbn -[sort_by_score evaluate_all]. destruct cs as [|c cs]; [done|].
    destruct (sort_by_score (c :: cs)) eqn:Es; [done|]. simpl.
    by apply slice_to_mono.
Qed.

(** * Facts about the handler *)

Section handler_facts.
Context {libm : Libm}.
Variable int_of_str : string -> option Z.
Variable load_catalog : pyval -> pyval -> outcome catalog.
Variable load_matrix : pyval -> pyval -> outcome csv.

Abbreviation handler := (lambda_handler int_of_str load_catalog load_matrix).

(** The handler, by the stage at which it answers. *)
Lemma handler_stages ev :
  handler ev =
  match numbers int_of_str ev with
  | Err e => {| statusCode := 500; body := BodyError (ExceptionText e) |}
  | Ok (rv, rm, rg, n) =>
      if located ev then
        match
          catalog_df ← load_catalog (get ev "bucket") (get ev "catalog_key");
          raw ← load_matrix (get ev "bucket") (get ev "matrix_key");
          ix ← set_index_first raw;
          call_engine (source ev) rv rm rg catalog_df (applymap_bool ix) n
        with
        | Ok r => {| statusCode := 200; body := Body r |}
        | Err e => {| statusCode := 500; body := BodyError (ExceptionText e) |}
        end
      else {| statusCode := 400; body := BodyError MissingLocation |}
  end.
Proof.
  unfold lambda_handler, numbers, located, source.
  destruct (py_int _ (get_or ev "required_vcpus" _)) as [rv|]; [|done].
  destruct (py_int _ (get_or ev "required_memory_mib" _)) as [rm|]; [|done].
  destruct (py_int _ (get_or ev "required_gpus" _)) as [rg|]; [|done].
  destruct (py_int _ (get_or ev "top_n" _)) as [n|]; [|done]. simpl.
  destruct (truthy (get ev "bucket")), (truthy (get ev "catalog_key")),
    (truthy (get ev "matrix_key")); try done. simpl.
  destruct (load_catalog _ _); [|done]. simpl.
  destruct (load_matrix _ _); [|done]. simpl.
  destruct (set_index_first _); [|done]. simpl.
  by destruct (call_engine _ _ _ _ _ _ _).
Qed.

End handler_facts.

Section handler_lemmas.

Lemma get_or_insert_ne (ev : gmap string pyval) k k' v d :
  k ≠ k' -> get_or (<[k := v]> ev) k' d = get_or ev k' d.
Proof. intros H. unfold get_or. by rewrite lookup_insert_ne. Qed.

Lemma get_insert_ne (ev : gmap string pyval) k k' v :
  k ≠ k' -> get (<[k := v]> ev) k' = get ev k'.
Proof. intros H. unfold get. by rewrite lookup_insert_ne. Qed.

Lemma get_or_insert_default (ev : gmap string pyval) k d :
  ev !! k = None -> get_or (<[k := d]> ev) k d = get_or ev k d.
Proof. intros H. unfold get_or. by rewrite lookup_insert_eq, H. Qed.

Lemma get_insert_eq (ev : gmap string pyval) k v :
  get (<[k := v]> ev) k = v.
Proof. unfold get. by rewrite lookup_insert_eq. Qed.

Lemma numbers_failure ios ev e :
  numbers ios ev = Err e -> e = IntTypeError ∨ ∃ s, e = IntValueError s.
Proof.
  assert (∀ v z, py_int ios v = Err z ->
            z = IntTypeError ∨ ∃ s, z = IntValueError s) as Hint.
  { intros [|b|z|s] x; simpl; try done; [intros [= <-]; by left|].
    destruct (ios s); [done|]. intros [= <-]. right. by eexists. }
  unfold numbers.
  destruct (py_int _ (get_or ev "required_vcpus" _)) eqn:E1;
    [|simpl; intros [= <-]; by eapply Hint].
  destruct (py_int _ (get_or ev "required_memory_mib" _)) eqn:E2;
    [|simpl; intros [= <-]; by eapply Hint].
  destruct (py_int _ (get_or ev "required_gpus" _)) eqn:E3;
    [|simpl; intros [= <-]; by eapply Hint].
  destruct (py_int _ (get_or ev "top_n" _)) eqn:E4;
    [done|simpl; intros [= <-]; by eapply Hint].
Qed.

End handler_lemmas.

(** X8: the handler answers 400 exactly when the four numbers of the event
    convert and one of bucket, catalog_key and matrix_key is missing or
    empty; the body then says so, and the object store is not read: the
    answer is the same whatever the store holds. *)
Theorem missing_location_answer {libm : Libm} ios lc lm ev :
  let h := lambda_handler ios lc lm ev in
  (statusCode h = 400 ↔
     (∃ q, numbers ios ev = Ok q) ∧ located ev = false) ∧
  (statusCode h = 400 ->
     body h = BodyError MissingLocation ∧
     ∀ lc' lm', lambda_handler ios lc' lm' ev = h).
Proof.
  simpl. split.
  - rewrite handler_stages.
    destruct (numbers ios ev) as [[[[rv rm] rg] n]|e]; simpl.
    + destruct (located ev).
      * destruct (_ ≫= _); simpl; split; try done; by intros [_ ?].
      * simpl. split; [eauto|done].
    + split; [done|]. by intros [[q ?] _].
  - intros H. split.
    + revert H. rewrite handler_stages.
      destruct (numbers ios ev) as [[[[rv rm] rg] n]|e]; [|done].
      destruct (located ev); [|done]. by destruct (_ ≫= _).
    + intros lc' lm'. revert H. rewrite !handler_stages.
      destruct (numbers ios ev) as [[[[rv rm] rg] n]|e]; [|done].
      destruct (located ev); [|done]. by destruct (_ ≫= _).
Qed.

(** X9: a number of the event that does not convert makes the handler
    answer 500, also when a location is missing: an explicit null is not
    replaced by the default, and a string must spell an integer. *)
Theorem failed_number_is_server_error {libm : Libm} ios lc lm ev k :
  k ∈ ["required_vcpus"; "required_memory_mib"; "required_gpus"; "top_n"] ->
  ev !! k = Some VNone ∨ (∃ s, ev !! k = Some (VStr s) ∧ ios s = None) ->
  ∃ e, lambda_handler ios lc lm ev =
         {| statusCode := 500; body := BodyError (ExceptionText e) |} ∧
       (e = IntTypeError ∨ ∃ s, e = IntValueError s).
Proof.
  intros Hk Hv.
  assert (∀ d, ∃ e, py_int ios (get_or ev k d) = Err e) as Hbad.
  { intros d. unfold get_or. destruct Hv as [->|(s & -> & Hs)]; simpl.
    - by eexists.
    - rewrite Hs. by eexists. }
  assert (∃ e, numbers ios ev = Err e) as [e He].
  { unfold numbers.
    destruct (py_int _ (get_or ev "required_vcpus" _)) eqn:E1; [|by eexists].
    destruct (py_int _ (get_or ev "required_memory_mib" _)) eqn:E2;
      [|by eexists].
    destruct (py_int _ (get_or ev "required_gpus" _)) eqn:E3; [|by eexists].
    destruct (py_int _ (get_or ev "top_n" _)) eqn:E4; [|by eexists].
    exfalso.
    repeat (apply elem_of_cons in Hk as [->|Hk];
      [match goal with d : pyval |- _ => idtac | _ => idtac end;
       first [destruct (Hbad (VInt 0)) as [x Hx]; congruence
             |destruct (Hbad (VInt 3)) as [x Hx]; congruence]|]).
    by apply elem_of_nil in Hk. }
  exists e. split; [|by eapply numbers_failure].
  by rewrite handler_stages, He.
Qed.

Lemma failed_number_is_server_error_witness :
  "top_n" ∈ ["required_vcpus"; "required_memory_mib"; "required_gpus"; "top_n"] ∧
  (({[ "top_n" := VNone ]} : gmap string pyval) !! "top_n" = Some VNone ∨
   (∃ s, ({[ "top_n" := VNone ]} : gmap string pyval) !! "top_n"
           = Some (VStr s) ∧ no_int_of_str s = None)) ∧
  ∃ e, lambda_handler no_int_of_str store_catalog store_matrix
         {[ "top_n" := VNone ]} =
         {| statusCode := 500; body := BodyError (ExceptionText e) |} ∧
       (e = IntTypeError ∨ ∃ s, e = IntValueError s).
Proof.
  assert ("top_n" ∈ ["required_vcpus"; "required_memory_mib";
                      "required_gpus"; "top_n"]) as H1
    by (do 3 apply list_elem_of_further; apply list_elem_of_here).
  assert (({[ "top_n" := VNone ]} : gmap string pyval) !! "top_n" = Some VNone ∨
          (∃ s, ({[ "top_n" := VNone ]} : gmap string pyval) !! "top_n"
                  = Some (VStr s) ∧ no_int_of_str s = None)) as H2
    by (left; vm_compute; reflexivity).
  split; [exact H1|]. split; [exact H2|].
  exact (failed_number_is_server_error no_int_of_str store_catalog store_matrix
           _ "top_n" H1 H2).
Defined.


(** X11: a ranked answer of the handler is for the source and the numbers
    of the event: the source is the string the event names, the echoed
    requirement is the converted numbers, the three locations were given,
    every entry reaches the requirement, and none is the source. *)
Theorem ranked_answer_matches_event {libm : Libm} ios lc lm ev current req best top :
  body (lambda_handler ios lc lm ev) = Body (Ranked current req best top) ->
  statusCode (lambda_handler ios lc lm ev) = 200 ∧
  source ev = VStr current ∧
  (∃ n, numbers ios ev = Ok (vcpus req, memory_mib req, gpus req, n)) ∧
  located ev = true ∧
  ∀ c, c ∈ best :: top ->
    vcpus req <= vCPUs c ∧ memory_mib req <= MemoryMiB c ∧
    gpus req <= GPUs c ∧ InstanceType c ≠ current.
Proof.
  rewrite handler_stages.
  destruct (numbers ios ev) as [[[[rv rm] rg] n]|e]; [|done].
  destruct (located ev); [|done].
  destruct (lc _ _) as [nm|]; [|done]. simpl.
  destruct (lm _ _) as [raw|]; [|done]. simpl.
  destruct (set_index_first raw) as [ix|]; [|done]. simpl.
  unfold call_engine.
  destruct (source ev) as [| | |s]; try done.
  destruct (recommend_instance s rv rm rg _ n).1 as [r|] eqn:Er; [|done].
  simpl. intros [= ->].
  destruct (ranked_inv _ _ _ _ _ _ _ _ _ _ Er)
    as (names & cs & Hn & Hcs & -> & -> & Hb & ->).
  split; [done|]. split; [done|]. split; [by eexists|]. split; [done|].
  intros c Hc%(ranked_members _ _ _ _ Hb).
  pose proof (evaluate_all_names _ _ _ _ Hcs) as [Hnames Hall].
  rewrite Forall_forall in Hall.
  pose proof (Hall _ Hc) as (inst & _ & _ & _ & ? & ? & ? & _)%evaluate_Some.
  repeat split; try done.
  intros Heq. apply (compatible_names_not_current _ _ _ Hn).
  assert (InstanceType c ∈ InstanceType <$> cs) as Hi
    by (apply list_elem_of_fmap; eauto).
  rewrite Hnames in Hi. apply list_elem_of_filter in Hi as [_ Hi].
  by rewrite <- Heq.
Qed.

Lemma ranked_answer_matches_event_witness :
  body (lambda_handler no_int_of_str store_catalog store_matrix event_A) =
    Body (Ranked "A" req_A cand_C [cand_C; cand_B]) ∧
  (statusCode (lambda_handler no_int_of_str store_catalog store_matrix event_A)
     = 200 ∧
   source event_A = VStr "A" ∧
   (∃ n, numbers no_int_of_str event_A =
           Ok (vcpus req_A, memory_mib req_A, gpus req_A, n)) ∧
   located event_A = true ∧
   ∀ c, c ∈ cand_C :: [cand_C; cand_B] ->
     vcpus req_A <= vCPUs c ∧ memory_mib req_A <= MemoryMiB c ∧
     gpus req_A <= GPUs c ∧ InstanceType c ≠ "A").
Proof.
  assert (body (lambda_handler no_int_of_str store_catalog store_matrix
                  event_A) =
            Body (Ranked "A" req_A cand_C [cand_C; cand_B])) as H
    by (vm_compute; reflexivity).
  split; [exact H|].
  exact (ranked_answer_matches_event no_int_of_str store_catalog store_matrix
           event_A "A" req_A cand_C [cand_C; cand_B] H).
Defined.

(** X12: when the source of the event is a string, the numbers convert,
    the locations are given and both tables load, the handler answers 200
    with whatever response the engine returns for that source, the two
    empty outcomes included, and 500 with the engine's error when it
    raises; a source string that the catalog does not have is answered
    500. *)
Theorem handler_wraps_engine {libm : Libm} ios lc lm ev rv rm rg n nm raw ix s :
  numbers ios ev = Ok (rv, rm, rg, n) ->
  located ev = true ->
  lc (get ev "bucket") (get ev "catalog_key") = Ok nm ->
  lm (get ev "bucket") (get ev "matrix_key") = Ok raw ->
  set_index_first raw = Ok ix ->
  source ev = VStr s ->
  let result :=
    (recommend_instance s rv rm rg
       {| instances_df := nm; matrix_df := applymap_bool ix |} n).1 in
  (∀ r, result = Return r ->
     lambda_handler ios lc lm ev = {| statusCode := 200; body := Body r |}) ∧
  (∀ e, result = Raise e ->
     lambda_handler ios lc lm ev =
       {| statusCode := 500;
          body := BodyError (ExceptionText (EngineError e)) |}) ∧
  (nm !! s = None ->
     lambda_handler ios lc lm ev =
       {| statusCode := 500;
          body := BodyError (ExceptionText (EngineError (NotInCatalog s))) |}).
Proof.
  intros Hnum Hloc Hlc Hlm Hix Hsrc result.
  assert (lambda_handler ios lc lm ev =
            match result with
            | Return r => {| statusCode := 200; body := Body r |}
            | Raise e => {| statusCode := 500;
                            body := BodyError (ExceptionText (EngineError e)) |}
            end) as Hh.
  { rewrite handler_stages, Hnum, Hloc, Hlc. simpl. rewrite Hlm. simpl.
    rewrite Hix. simpl. unfold call_engine. rewrite Hsrc. fold result.
    by destruct result. }
  split; [|split].
  - intros r Hr. by rewrite Hh, Hr.
  - intros e He. by rewrite Hh, He.
  - intros Hnone. rewrite Hh. subst result. unfold recommend_instance.
    simpl. by rewrite Hnone.
Qed.

(** The theorem at work on the sample store: the event for the source A
    is answered 200 with the ranked response, the event for the unknown
    source Z is answered 500. *)
Lemma handler_wraps_engine_witness :
  (numbers no_int_of_str event_A = Ok (4, 8192, 0, 3) ∧
   located event_A = true ∧
   store_catalog (get event_A "bucket") (get event_A "catalog_key")
     = Ok catalog_A ∧
   store_matrix (get event_A "bucket") (get event_A "matrix_key") = Ok csv_A ∧
   set_index_first csv_A =
     Ok {| ix_index := fst <$> rows csv_A;
           ix_columns := ["A"; "B"; "C"; "D"];
           ix_cells := snd <$> rows csv_A |} ∧
   source event_A = VStr "A" ∧
   (recommend_instance "A" 4 8192 0
      {| instances_df := catalog_A;
         matrix_df := applymap_bool
           {| ix_index := fst <$> rows csv_A;
              ix_columns := ["A"; "B"; "C"; "D"];
              ix_cells := snd <$> rows csv_A |} |} 3).1 =
     Return (Ranked "A" req_A cand_C [cand_C; cand_B]) ∧
   lambda_handler no_int_of_str store_catalog store_matrix event_A =
     {| statusCode := 200;
        body := Body (Ranked "A" req_A cand_C [cand_C; cand_B]) |}) ∧
  (numbers no_int_of_str event_Z = Ok (4, 8192, 0, 3) ∧
   located event_Z = true ∧
   store_catalog (get event_Z "bucket") (get event_Z "catalog_key")
     = Ok catalog_A ∧
   store_matrix (get event_Z "bucket") (get event_Z "matrix_key") = Ok csv_A ∧
   source event_Z = VStr "Z" ∧
   catalog_A !! "Z" = None ∧
   lambda_handler no_int_of_str store_catalog store_matrix event_Z =
     {| statusCode := 500;
        body := BodyError (ExceptionText (EngineError (NotInCatalog "Z"))) |}).
Proof.
  assert (set_index_first csv_A =
            Ok {| ix_index := fst <$> rows csv_A;
                  ix_columns := ["A"; "B"; "C"; "D"];
                  ix_cells := snd <$> rows csv_A |}) as H5 by reflexivity.
  assert (numbers no_int_of_str event_A = Ok (4, 8192, 0, 3)) as A1
    by (vm_compute; reflexivity).
  assert (located event_A = true) as A2 by (vm_compute; reflexivity).
  assert (store_catalog (get event_A "bucket") (get event_A "catalog_key")
            = Ok catalog_A) as A3 by (vm_compute; reflexivity).
  assert (store_matrix (get event_A "bucket") (get event_A "matrix_key")
            = Ok csv_A) as A4 by (vm_compute; reflexivity).
  assert (source event_A = VStr "A") as A6 by (vm_compute; reflexivity).
  assert ((recommend_instance "A" 4 8192 0
             {| instances_df := catalog_A;
                matrix_df := applymap_bool
                  {| ix_index := fst <$> rows csv_A;
                     ix_columns := ["A"; "B"; "C"; "D"];
                     ix_cells := snd <$> rows csv_A |} |} 3).1 =
            Return (Ranked "A" req_A cand_C [cand_C; cand_B])) as A7
    by (vm_compute; reflexivity).
  assert (numbers no_int_of_str event_Z = Ok (4, 8192, 0, 3)) as Z1
    by (vm_compute; reflexivity).
  assert (located event_Z = true) as Z2 by (vm_compute; reflexivity).
  assert (store_catalog (get event_Z "bucket") (get event_Z "catalog_key")
            = Ok catalog_A) as Z3 by (vm_compute; reflexivity).
  assert (store_matrix (get event_Z "bucket") (get event_Z "matrix_key")
            = Ok csv_A) as Z4 by (vm_compute; reflexivity).
  assert (source event_Z = VStr "Z") as Z6 by (vm_compute; reflexivity).
  assert (catalog_A !! "Z" = None) as Z7 by (vm_compute; reflexivity).
  pose proof (handler_wraps_engine no_int_of_str store_catalog store_matrix
                event_A 4 8192 0 3 catalog_A csv_A _ "A" A1 A2 A3 A4 H5 A6)
    as HA.
  pose proof (handler_wraps_engine no_int_of_str store_catalog store_matrix
                event_Z 4 8192 0 3 catalog_A csv_A _ "Z" Z1 Z2 Z3 Z4 H5 Z6)
    as HZ.
  split.
  - split; [exact A1|]. split; [exact A2|]. split; [exact A3|].
    split; [exact A4|]. split; [exact H5|]. split; [exact A6|].
    split; [exact A7|]. exact (proj1 HA _ A7).
  - split; [exact Z1|]. split; [exact Z2|]. split; [exact Z3|].
    split; [exact Z4|]. split; [exact Z6|]. split; [exact Z7|].
    exact (proj2 (proj2 HZ) Z7).
Defined.

(** X13: a number the event leaves out counts as its default, 0 for the
    three requirements and 3 for the limit: writing the default into the
    event changes nothing in the answer. *)
Theorem omitted_numbers_default {libm : Libm} ios lc lm ev k d :
  (k, d) ∈ [("required_vcpus", 0); ("required_memory_mib", 0);
            ("required_gpus", 0); ("top_n", 3)] ->
  ev !! k = None ->
  lambda_handler ios lc lm (<[k := VInt d]> ev) = lambda_handler ios lc lm ev.
Proof.
  intros Hk Hnone. unfold lambda_handler.
  repeat (apply elem_of_cons in Hk as [[= -> ->]|Hk];
    [rewrite ?(get_or_insert_default _ _ _ Hnone);
     rewrite ?get_or_insert_ne, ?get_insert_ne by done; reflexivity|]).
  by apply elem_of_nil in Hk.
Qed.

Lemma omitted_numbers_default_witness :
  ("top_n", 3) ∈ [("required_vcpus", 0); ("required_memory_mib", 0);
                  ("required_gpus", 0); ("top_n", 3)] ∧
  event_A !! "top_n" = None ∧
  lambda_handler no_int_of_str store_catalog store_matrix
    (<["top_n" := VInt 3]> event_A) =
  lambda_handler no_int_of_str store_catalog store_matrix event_A.
Proof.
  assert (("top_n", 3) ∈ [("required_vcpus", 0); ("required_memory_mib", 0);
                          ("required_gpus", 0); ("top_n", 3)]) as H1
    by (do 3 apply list_elem_of_further; apply list_elem_of_here).
  assert (event_A !! "top_n" = None) as H2 by (vm_compute; reflexivity).
  split; [exact H1|]. split; [exact H2|].
  exact (omitted_numbers_default no_int_of_str store_catalog store_matrix
           event_A "top_n" 3 H1 H2).
Defined.

(** X14: the handler takes its source from current_instance_type when that
    is given and not empty, and from instance_type otherwise: it answers as
    it would with the chosen source written under current_instance_type,
    and with a source under current_instance_type it does not read
    instance_type. *)
Theorem source_fallback {libm : Libm} ios lc lm ev :
  lambda_handler ios lc lm (<["current_instance_type" := source ev]> ev) =
    lambda_handler ios lc lm ev ∧
  (truthy (get ev "current_instance_type") = false ->
     source ev = get ev "instance_type") ∧
  (truthy (get ev "current_instance_type") = true ->
     ∀ v, lambda_handler ios lc lm (<["instance_type" := v]> ev) =
          lambda_handler ios lc lm ev).
Proof.
  split; [|split].
  - unfold lambda_handler.
    rewrite !get_or_insert_ne by done.
    rewrite (get_insert_ne ev _ "bucket"), (get_insert_ne ev _ "catalog_key"),
      (get_insert_ne ev _ "matrix_key"), (get_insert_ne ev _ "instance_type"),
      get_insert_eq by done.
    assert (py_or (source ev) (get ev "instance_type") = source ev) as ->;
      [|done].
    unfold source, py_or.
    destruct (truthy (get ev "current_instance_type")) eqn:E;
      [by rewrite E|]. by destruct (truthy (get ev "instance_type")).
  - intros H. unfold source, py_or. by rewrite H.
  - intros H v. unfold lambda_handler.
    rewrite !get_or_insert_ne by done.
    rewrite (get_insert_ne ev _ "bucket"), (get_insert_ne ev _ "catalog_key"),
      (get_insert_ne ev _ "matrix_key"),
      (get_insert_ne ev _ "current_instance_type"), get_insert_eq by done.
    unfold py_or. by rewrite H.
Qed.


Section no_overflow.
Import Float FloatFacts FloatBounds FloatBounds2 FloatPow.
Context {libm : Libm}.

(** On 64-bit integers [distance] returns. *)
Lemma distance_returns v m g req :
  int64 v -> int64 m -> int64 g ->
  int64 (vcpus req) -> int64 (memory_mib req) -> int64 (gpus req) ->
  ∃ d, distance v m g req = Return d.
Proof.
  intros Hv Hm Hg Hrv Hrm Hrg.
  destruct (distance_cases v m g req) as [H|(d & H & _)]; [|by eexists].
  exfalso. revert H. unfold distance.
  destruct (int_div_1024_returns m Hm) as (ms & -> & Hms).
  destruct (int_div_1024_returns _ Hrm) as (rs & -> & Hrs). simpl.
  assert (sf_mag_le 128 (Prim2SF (ms - rs))) as Hsub
    by (rewrite sub_spec; by apply (SFsub_mag _ _ 126)).
  destruct (pow2_returns _ 128 Hsub) as (m2 & ->); [lia..|]. simpl.
  unfold int_add, add_int.
  destruct (of_int_returns ((v - vcpus req) ^ 2) 130) as (fv & -> & _);
    [lia|by apply square_int64_bound|]. simpl.
  destruct (of_int_returns ((g - gpus req) ^ 2) 130) as (fg & -> & _);
    [lia|by apply square_int64_bound|]. simpl.
  unfold math_sqrt. by destruct (_ && _).
Qed.

End no_overflow.

(** X15: on 64-bit integers the scoring expression does not overflow:
    for resources and a requirement in the 64-bit range it returns a
    score, which is a number that is not negative. *)
Theorem score_returns_on_int64 {libm : Libm} vcpu mem gpu rv rm rg :
  int64 vcpu -> int64 mem -> int64 gpu ->
  int64 rv -> int64 rm -> int64 rg ->
  ∃ d, distance vcpu mem gpu
         {| vcpus := rv; memory_mib := rm; gpus := rg |} = Return d ∧
       is_nan d = false ∧ (0 <=? d)%float = true.
Proof.
  intros Hv Hm Hg Hrv Hrm Hrg.
  destruct (distance_returns vcpu mem gpu
              {| vcpus := rv; memory_mib := rm; gpus := rg |}
              Hv Hm Hg Hrv Hrm Hrg) as [d Hd].
  exists d. split; [done|].
  destruct (distance_cases vcpu mem gpu
              {| vcpus := rv; memory_mib := rm; gpus := rg |})
    as [H|(d' & H & Hn)]; rewrite Hd in H; [done|].
  injection H as <-. split.
  - rewrite FloatFacts.is_nan_spec. by apply FloatSigns.sf_nonneg_not_nan.
  - by apply nonneg_leb_zero.
Qed.

Lemma score_returns_on_int64_witness :
  int64 8 ∧ int64 16384 ∧ int64 0 ∧ int64 4 ∧ int64 8192 ∧ int64 0 ∧
  ∃ d, distance 8 16384 0
         {| vcpus := 4; memory_mib := 8192; gpus := 0 |} = Return d ∧
       is_nan d = false ∧ (0 <=? d)%float = true.
Proof.
  assert (∀ z, (- 2 ^ 63 <=? z) && (z <? 2 ^ 63) = true -> int64 z) as Hdec.
  { intros z [Ha Hb]%andb_prop. apply Z.leb_le in Ha. apply Z.ltb_lt in Hb.
    by split. }
  assert (int64 8) as H1 by (apply Hdec; vm_compute; reflexivity).
  assert (int64 16384) as H2 by (apply Hdec; vm_compute; reflexivity).
  assert (int64 0) as H3 by (apply Hdec; vm_compute; reflexivity).
  assert (int64 4) as H4 by (apply Hdec; vm_compute; reflexivity).
  assert (int64 8192) as H5 by (apply Hdec; vm_compute; reflexivity).
  split; [exact H1|]. split; [exact H2|]. split; [exact H3|].
  split; [exact H4|]. split; [exact H5|]. split; [exact H3|].
  exact (score_returns_on_int64 8 16384 0 4 8192 0 H1 H2 H3 H4 H5 H3).
Defined.
